(** * V8ScriptRuntime: the host/guest bridge of citizen-scripting-v8

    A shallow embedding of
    [code/components/citizen-scripting-v8/src/V8ScriptRuntime.cpp]:
    the value marshaler ([PushArgument], [ProcessResult],
    [V8_InvokeNative]), the string arena ([AssignStringValue]), the
    reference registry ([V8_MakeFunctionReference],
    [V8_InvokeFunctionReference], [FnRefWeakCallback] and the per-tick
    drain), the routine slots and their one-time setters, the environment
    scopes ([V8PushEnvironment] and the node scope handler) and the
    dispatch surface ([Tick], [TriggerEvent], [CallRef], [DuplicateRef],
    [RemoveRef], [WalkStack]).

    Numbers are IEEE-754 values in the representation of the standard
    library's [SpecFloat]; maps are stdpp's [gmap]; the arrays that the
    code updates by index are lists with stdpp's lookup and insert. *)

From Stdlib Require Import ZArith Lia Strings.Byte.
From Stdlib Require Import SpecFloat.
From stdpp Require Import base option list strings gmap.

Local Open Scope Z_scope.

(** ** Bytes and C strings *)

Abbreviation bytes := (list byte).

(** What a reader of a [char*] sees of a buffer: the bytes before the
    first NUL.  [std::string::c_str], the assignment of a [const char*] to
    a [std::string] and [String::NewFromUtf8] without a length all go
    through this view. *)
Fixpoint c_str (s : bytes) : bytes :=
  match s with
  | [] => []
  | b :: s' => if Byte.eqb b x00 then [] else b :: c_str s'
  end.

(** ** IEEE-754 numbers *)

Module IEEE.

(** [double] is binary64 and [float] is binary32; both are carried by
    [spec_float], the format being given to each operation. *)
Abbreviation double := spec_float (only parsing).
Abbreviation float := spec_float (only parsing).

Definition prec64 : Z := 53.
Definition emax64 : Z := 1024.
Definition prec32 : Z := 24.
Definition emax32 : Z := 128.

Definition valid_double (v : double) : Prop := valid_binary prec64 emax64 v = true.

Definition INT64_MIN : Z := - 2 ^ 63.
Definition INT64_MAX : Z := 2 ^ 63 - 1.
Definition INT32_MIN : Z := - 2 ^ 31.
Definition INT32_MAX : Z := 2 ^ 31 - 1.

Definition in_int64 (n : Z) : bool := (INT64_MIN <=? n) && (n <=? INT64_MAX).
Definition in_int32 (n : Z) : bool := (INT32_MIN <=? n) && (n <=? INT32_MAX).

(** The C++ [NAN] macro. *)
Definition NAN : float := S754_nan.

(** [a == b] on floating-point operands. *)
Definition fp_eq (a b : spec_float) : bool := SFeqb a b.

(** Truncation toward zero of a finite value [(-1)^s * m * 2^e]; nothing
    for an infinity or a NaN. *)
Definition trunc (v : spec_float) : option Z :=
  match v with
  | S754_zero _ => Some 0
  | S754_finite s m e => Some (cond_Zopp s (Z.shiftl (Z.pos m) e))
  | S754_infinity _ | S754_nan => None
  end.

(** [static_cast<int64_t>(value)].  A value whose truncation does not fit
    (and an infinity or a NaN) is outside the C++ definition; the model
    takes what the x86-64 conversion instruction gives there, the
    "integer indefinite" value [0x8000000000000000]. *)
Definition static_cast_int64 (v : double) : Z :=
  match trunc v with
  | Some t => if in_int64 t then t else INT64_MIN
  | None => INT64_MIN
  end.

(** [(double) n] for an integer: round to nearest, ties to even. *)
Definition Z_to_double (n : Z) : double := binary_normalize prec64 emax64 n 0 false.

(** [static_cast<float>(value)] on a double. *)
Definition static_cast_float (v : double) : float :=
  match v with
  | S754_finite s m e => binary_round prec32 emax32 s m e
  | _ => v
  end.

(** A float widened to a double (exact). *)
Definition float_to_double (x : float) : double :=
  match x with
  | S754_finite s m e => binary_round prec64 emax64 s m e
  | _ => x
  end.

(** The finite value is an integer. *)
Definition is_integral (v : spec_float) : bool :=
  match v with
  | S754_zero _ => true
  | S754_finite _ m e => (0 <=? e) || (Z.pos m mod 2 ^ (- e) =? 0)
  | S754_infinity _ | S754_nan => false
  end.

Definition is_minus_zero (v : spec_float) : bool :=
  match v with
  | S754_zero true => true
  | _ => false
  end.

(** ECMAScript ToInt32: truncate, then wrap into the signed 32-bit range;
    an infinity or a NaN gives 0. *)
Definition to_int32 (v : double) : Z :=
  match trunc v with
  | Some t => (t + 2 ^ 31) mod 2 ^ 32 - 2 ^ 31
  | None => 0
  end.

End IEEE.

Import IEEE.

(** ** Script values *)

Inductive view_kind := Uint8Array | OtherView.

(** The values of the guest that the bridge tells apart.  A string is
    carried by its UTF-8 bytes (what [String::Utf8Value] yields), a typed
    array or data view by its backing store, byte offset and byte length,
    an object by its own data properties; [JSOther] stands for the
    remaining primitives (symbols, big integers), with their string form.
    Accessors and proxies, whose reads can throw, are not represented. *)
#[local] Set Warnings "-register-all".
Inductive jsvalue :=
| JSUndefined
| JSNull
| JSBoolean (b : bool)
| JSBooleanObject (b : bool)
| JSNumber (d : double)
| JSString (utf8 : bytes)
| JSExternal (ptr : Z)
| JSArray (elems : list jsvalue)
| JSArrayBufferView (kind : view_kind) (store : bytes) (offset len : nat)
| JSObject (props : list (string * jsvalue))
| JSFunction (f : nat)
| JSOther (str : bytes).

Definition IsNumber (v : jsvalue) : bool :=
  match v with JSNumber _ => true | _ => false end.

(** [Value::IsInt32]: a number that is an integer of the signed 32-bit
    range and not the negative zero. *)
Definition IsInt32 (v : jsvalue) : bool :=
  match v with
  | JSNumber d =>
      is_integral d && negb (is_minus_zero d) &&
      match trunc d with Some t => in_int32 t | None => false end
  | _ => false
  end.

Definition Int32Value (v : jsvalue) : Z :=
  match v with JSNumber d => to_int32 d | _ => 0 end.

Definition IsArrayBufferView (v : jsvalue) : bool :=
  match v with JSArrayBufferView _ _ _ _ => true | _ => false end.

(** The bytes a view covers ([ArrayBufferView::CopyContents] over its
    whole length). *)
Definition view_contents (store : bytes) (offset len : nat) : bytes :=
  take len (drop offset store).

(** [Uint8Array::New] over a fresh buffer that holds [b]. *)
Definition new_Uint8Array (b : bytes) : jsvalue :=
  JSArrayBufferView Uint8Array b 0 (length b).

(** [Array::Get(idx)]: the element, [undefined] past the end. *)
Definition array_get (elems : list jsvalue) (idx : nat) : jsvalue :=
  default JSUndefined (elems !! idx).

(** [Array::Set(idx, v)]: a JavaScript array grows when it is written past
    its end, the gap reading as [undefined]. *)
Definition array_set (elems : list jsvalue) (idx : nat) (v : jsvalue) : list jsvalue :=
  if decide (idx < length elems)%nat then <[idx := v]> elems
  else elems ++ replicate (idx - length elems) JSUndefined ++ [v].

(** [Object::Get(name)] on data properties. *)
Fixpoint object_get (props : list (string * jsvalue)) (name : string) : jsvalue :=
  match props with
  | [] => JSUndefined
  | (k, v) :: props' => if String.eqb k name then v else object_get props' name
  end.

(** ** Native arguments and results *)

(** One slot of the native call, by the overload of [Push] that fills it.
    A string argument is a pointer into the runtime's string arena: it is
    carried as the index of the slot that owns the characters, with the
    length reported for it. *)
Inductive native_arg :=
| ArgInt64 (n : Z)
| ArgDouble (d : double)
| ArgBool (b : bool)
| ArgString (slot : nat) (len : nat)
| ArgInt32 (n : Z)
| ArgMetaPointer (ptr : Z)
| ArgFloat (x : float)
| ArgBuffer (store : bytes) (offset : nat) (len : nat).

(** A native result, by the static type [ProcessResult] is instantiated
    at. *)
Inductive native_result :=
| ResBool (b : bool)
| ResInt32 (n : Z)
| ResInt64 (n : Z)
| ResFloat (x : float)
| ResVector (x y z : float)
| ResCString (s : option bytes)
| ResString (str : bytes)
| ResObject (data : bytes).

Inductive script_error :=
| ScriptError (msg : string)
| ScriptErrorf_invalid_value (str : bytes).

Inductive result (A : Type) :=
| Ok (a : A)
| Err (e : script_error).
Arguments Ok {A} a.
Arguments Err {A} e.

(** ** The runtime instance *)

(** [_countof(m_stringValues)]. *)
Definition countof_m_stringValues : nat := 50.

(** The members of [V8ScriptRuntime] that the bridge logic reads or
    writes.  A routine member is a [std::function] that is either empty or
    holds the closure its [V8_Set...Function] built around the persisted
    guest callable: it is carried as the handle of that callable, the code
    of each closure being given once below.  [self] is the object's
    address; [m_taskQueue] tells whether the microtask queue exists. *)
Record V8ScriptRuntime := {
  self : nat;
  m_taskQueue : bool;
  m_tickRoutine : option nat;
  m_eventRoutine : option nat;
  m_callRefRoutine : option nat;
  m_duplicateRefRoutine : option nat;
  m_deleteRefRoutine : option nat;
  m_stackTraceRoutine : option nat;
  m_unhandledPromiseRejectionRoutine : option nat;
  m_stringValues : list (option bytes);
  m_curStringValue : nat
}.

(** The constructor: every routine empty, no task queue yet, fifty empty
    string slots and the cursor at 0. *)
Definition new_V8ScriptRuntime (addr : nat) : V8ScriptRuntime :=
  {| self := addr; m_taskQueue := false;
     m_tickRoutine := None; m_eventRoutine := None; m_callRefRoutine := None;
     m_duplicateRefRoutine := None; m_deleteRefRoutine := None;
     m_stackTraceRoutine := None; m_unhandledPromiseRejectionRoutine := None;
     m_stringValues := replicate countof_m_stringValues None;
     m_curStringValue := 0 |}.

(** The part of [Create] that the scopes depend on: the microtask queue
    is made. *)
Definition Create_taskQueue (rt : V8ScriptRuntime) : V8ScriptRuntime :=
  {| self := self rt; m_taskQueue := true;
     m_tickRoutine := m_tickRoutine rt; m_eventRoutine := m_eventRoutine rt;
     m_callRefRoutine := m_callRefRoutine rt;
     m_duplicateRefRoutine := m_duplicateRefRoutine rt;
     m_deleteRefRoutine := m_deleteRefRoutine rt;
     m_stackTraceRoutine := m_stackTraceRoutine rt;
     m_unhandledPromiseRejectionRoutine := m_unhandledPromiseRejectionRoutine rt;
     m_stringValues := m_stringValues rt; m_curStringValue := m_curStringValue rt |}.

Definition with_strings (slots : list (option bytes)) (cur : nat)
    (rt : V8ScriptRuntime) : V8ScriptRuntime :=
  {| self := self rt; m_taskQueue := m_taskQueue rt;
     m_tickRoutine := m_tickRoutine rt; m_eventRoutine := m_eventRoutine rt;
     m_callRefRoutine := m_callRefRoutine rt;
     m_duplicateRefRoutine := m_duplicateRefRoutine rt;
     m_deleteRefRoutine := m_deleteRefRoutine rt;
     m_stackTraceRoutine := m_stackTraceRoutine rt;
     m_unhandledPromiseRejectionRoutine := m_unhandledPromiseRejectionRoutine rt;
     m_stringValues := slots; m_curStringValue := cur |}.

(** ** String arena *)

(** [String::Utf8Value] of a value that is a string (the only use the
    marshaler makes of it). *)
Definition Utf8Value (value : jsvalue) : bytes :=
  match value with
  | JSString utf8 => utf8
  | JSOther str => str
  | _ => []
  end.

(** [AssignStringValue]: the new owned string takes the slot at the
    cursor, whose previous owner is destroyed, and the cursor advances
    modulo the table size.  The result is the returned pointer, as the
    index of the slot that owns the characters, and [*length]. *)
Definition AssignStringValue (value : jsvalue) (rt : V8ScriptRuntime)
    : (nat * nat) * V8ScriptRuntime :=
  let stringValue := Utf8Value value in
  let str := m_curStringValue rt in
  let length_ := length stringValue in
  ((str, length_),
   with_strings (<[m_curStringValue rt := Some stringValue]> (m_stringValues rt))
                ((m_curStringValue rt + 1) mod countof_m_stringValues)%nat
                rt).

(** The characters behind a string argument, read through its pointer at
    some later state of the arena. *)
Definition read_string (rt : V8ScriptRuntime) (slot : nat) : option bytes :=
  mjoin (m_stringValues rt !! slot).

(** Acquiring strings one after the other. *)
Definition assign_all (values : list jsvalue) (rt : V8ScriptRuntime) : V8ScriptRuntime :=
  foldl (fun r v => snd (AssignStringValue v r)) rt values.

(** ** Value marshaler *)

(** [V8ScriptNativeContext]: the runtime it points to and the argument
    slots pushed so far; a thrown [ScriptError] ends the computation. *)
Definition marshal (A : Type) : Type :=
  V8ScriptRuntime * list native_arg -> result (A * (V8ScriptRuntime * list native_arg)).

#[global] Instance marshal_ret : MRet marshal :=
  fun A a st => Ok (a, st).
#[global] Instance marshal_bind : MBind marshal :=
  fun A B k m st => match m st with
                    | Ok (a, st') => k a st'
                    | Err e => Err e
                    end.

Definition throw {A : Type} (e : script_error) : marshal A := fun _ => Err e.

(** Modelled from the spec: [ScriptNativeContext::Push] is declared in
    [ScriptInvoker.h]; it appends exactly one native argument. *)
Definition Push (a : native_arg) : marshal unit :=
  fun '(rt, args) => Ok (tt, (rt, args ++ [a])).

Definition assign_string (value : jsvalue) : marshal (nat * nat) :=
  fun '(rt, args) => let '(r, rt') := AssignStringValue value rt in Ok (r, (rt', args)).

(** The [getNumber] lambda of the array branch. *)
Definition getNumber (array : list jsvalue) (idx : nat) : float :=
  match array_get array idx with
  | JSNumber d => static_cast_float d
  | _ => NAN
  end.

Definition when_ (c : bool) (m : marshal unit) : marshal unit :=
  if c then m else mret tt.

(** [V8ScriptNativeContext::PushArgument]: the cascade of kind tests, in
    the order of the source. *)
Definition PushArgument (arg : jsvalue) : marshal unit :=
  match arg with
  (* IsNumber *)
  | JSNumber value =>
      let intValue := static_cast_int64 value in
      if fp_eq (Z_to_double intValue) value
      then Push (ArgInt64 intValue)
      else Push (ArgDouble value)
  (* IsBoolean || IsBooleanObject: BooleanValue of an object is true *)
  | JSBoolean b => Push (ArgBool b)
  | JSBooleanObject _ => Push (ArgBool true)
  (* IsString *)
  | JSString _ =>
      '(data, length_) ← assign_string arg;
      Push (ArgString data length_)
  (* IsNull || IsUndefined *)
  | JSNull | JSUndefined => Push (ArgInt32 0)
  (* IsExternal *)
  | JSExternal ptr => Push (ArgMetaPointer ptr)
  (* IsArray *)
  | JSArray array =>
      let Length := length array in
      when_ ((Length <? 2)%nat || (4 <? Length)%nat)
        (throw (ScriptError "arrays should be vectors (wrong number of values)"));;
      when_ (2 <=? Length)%nat
        (let x := getNumber array 0 in
         let y := getNumber array 1 in
         when_ (fp_eq x NAN || fp_eq y NAN)
           (throw (ScriptError "invalid vector array value"));;
         Push (ArgFloat x);;
         Push (ArgFloat y));;
      when_ (3 <=? Length)%nat
        (let z := getNumber array 2 in
         when_ (fp_eq z NAN)
           (throw (ScriptError "invalid vector array value"));;
         Push (ArgFloat z));;
      when_ (4 <=? Length)%nat
        (let w := getNumber array 3 in
         when_ (fp_eq w NAN)
           (throw (ScriptError "invalid vector array value"));;
         Push (ArgFloat w))
  (* IsArrayBufferView: the pointer is into the backing store at the
     view's offset, the length is the backing store's *)
  | JSArrayBufferView _ store offset _ =>
      Push (ArgBuffer store offset (length store))
  (* IsObject *)
  | JSObject props =>
      let data := object_get props "__data" in
      if IsNumber data
      then Push (ArgInt32 (Int32Value data))
      else throw (ScriptError "__data field does not contain a number")
  | JSFunction _ =>
      throw (ScriptError "__data field does not contain a number")
  (* anything else *)
  | JSOther str => throw (ScriptErrorf_invalid_value str)
  end.

(** The argument loop of [V8_InvokeNative]. *)
Fixpoint push_arguments (args : list jsvalue) : marshal unit :=
  match args with
  | [] => mret tt
  | arg :: rest => PushArgument arg;; push_arguments rest
  end.

(** The body of the lambda that [V8_InvokeNative] hands to
    [ProcessResults]: [returnValue] and [numResults] are its captured
    variables, [val] the converted result. *)
Definition collect_result (st : jsvalue * nat) (val : jsvalue) : jsvalue * nat :=
  let '(returnValue, numResults) := st in
  let returnValue :=
    if (numResults =? 0)%nat then val
    else
      let returnValue :=
        if (numResults =? 1)%nat
        then JSArray (array_set [] 0 returnValue)
        else returnValue in
      match returnValue with
      | JSArray elems => JSArray (array_set elems numResults val)
      | other => other
      end in
  (returnValue, S numResults).

(** ** The parts taken from the surroundings *)

Inductive call_outcome :=
| Returned (v : jsvalue)
| Threw (exception : jsvalue).

(** What [IScriptHost::InvokeFunctionReference] answers: success with a
    buffer or with none, or failure, [GetLastErrorText] then giving a text
    or leaving its argument as it was. *)
Inductive host_reply :=
| HostOk (retval : option bytes)
| HostFailed (last_error : option bytes).

Inductive trace_site :=
| TraceTick | TraceEvent | TraceCallRef | TraceDeleteRef | TraceDuplicateRef
| TraceStackTrace | TraceRejection.

(** What the bridge does that its surroundings can observe, in order. *)
Inductive event :=
| EvEnter (runtime : nat)
| EvLeave (runtime : nat)
| EvPerformCheckpoint (runtime : nat)
| EvCall (f : nat) (args : list jsvalue)
| EvScriptTrace (site : trace_site) (runtime : nat) (exception : jsvalue)
| EvHostInvoke (refId : bytes) (args : bytes)
| EvSubmitStackFrame (frame : bytes).

(** ** Environment scopes *)

(** The entries of the thread's [g_envStack], pushed by the node scope
    handler.  A [V8LitePushEnvironment] keeps the runtime it entered and
    [m_lastV8Runtime]. *)
Inductive BasePushEnvironment :=
| V8LitePushEnvironment (runtime : V8ScriptRuntime) (m_lastV8Runtime : option nat)
| V8LiteNoRuntimePushEnvironment
| V8NoopPushEnvironment.

(** The thread's and the process' bookkeeping: the current runtime (by
    address), the garbage collector's depth counter, the node scope stack
    (top first) and the events so far. *)
Record thread_state := {
  g_currentV8Runtime : option nat;
  g_isV8InGc : Z;
  g_envStack : list BasePushEnvironment;
  events : list event
}.

Definition emit (e : event) (st : thread_state) : thread_state :=
  {| g_currentV8Runtime := g_currentV8Runtime st; g_isV8InGc := g_isV8InGc st;
     g_envStack := g_envStack st; events := events st ++ [e] |}.

Definition set_current (r : option nat) (st : thread_state) : thread_state :=
  {| g_currentV8Runtime := r; g_isV8InGc := g_isV8InGc st;
     g_envStack := g_envStack st; events := events st |}.

Definition set_envStack (stack : list BasePushEnvironment) (st : thread_state) : thread_state :=
  {| g_currentV8Runtime := g_currentV8Runtime st; g_isV8InGc := g_isV8InGc st;
     g_envStack := stack; events := events st |}.

(** The garbage collector's prologue and epilogue callbacks. *)
Definition GCPrologueCallback (st : thread_state) : thread_state :=
  {| g_currentV8Runtime := g_currentV8Runtime st; g_isV8InGc := g_isV8InGc st + 1;
     g_envStack := g_envStack st; events := events st |}.

Definition GCEpilogueCallback (st : thread_state) : thread_state :=
  {| g_currentV8Runtime := g_currentV8Runtime st; g_isV8InGc := g_isV8InGc st - 1;
     g_envStack := g_envStack st; events := events st |}.

(** [V8ScriptRuntime::RunMicrotasks]. *)
Definition RunMicrotasks (rt : V8ScriptRuntime) (st : thread_state) : thread_state :=
  if m_taskQueue rt then
    if g_isV8InGc st =? 0 then emit (EvPerformCheckpoint (self rt)) st
    else st
  else st.

(** The constructor of [V8PushEnvironment] (and of
    [V8LitePushEnvironment]): the members are built, [m_pushEnvironment]
    among them, then the body saves the current runtime and installs the
    new one.  The result is [m_lastV8Runtime]. *)
Definition V8PushEnvironment_enter (rt : V8ScriptRuntime) (st : thread_state)
    : option nat * thread_state :=
  let st := emit (EvEnter (self rt)) st in
  let m_lastV8Runtime := g_currentV8Runtime st in
  (m_lastV8Runtime, set_current (Some (self rt)) st).

(** The destructor: the members go in the reverse order of their
    declaration, so [m_microtaskScope] first (which runs the microtasks),
    then [m_scoped] (which restores the current runtime), and further down
    [m_pushEnvironment]. *)
Definition V8PushEnvironment_leave (rt : V8ScriptRuntime) (m_lastV8Runtime : option nat)
    (st : thread_state) : thread_state :=
  let st := RunMicrotasks rt st in
  let st := set_current m_lastV8Runtime st in
  emit (EvLeave (self rt)) st.

(** [{ V8PushEnvironment pushed(rt); body }]. *)
Definition V8PushEnvironment {A : Type} (rt : V8ScriptRuntime)
    (body : thread_state -> A * thread_state) (st : thread_state) : A * thread_state :=
  let '(m_lastV8Runtime, st) := V8PushEnvironment_enter rt st in
  let '(a, st) := body st in
  (a, V8PushEnvironment_leave rt m_lastV8Runtime st).

(** The handler given to [node::SetScopeHandler] for entering a scope of
    the environment whose runtime is [runtime] (none when [GetEnvRuntime]
    finds none).  [IsLocked] is [v8::Locker::IsLocked] and [TryPush] the
    outcome of [PushEnvironment::TryPush], both read where the handler
    reads them. *)
Definition node_scope_enter (runtime : option V8ScriptRuntime) (IsLocked TryPush : bool)
    (st : thread_state) : thread_state :=
  match runtime with
  | Some rt =>
      if decide (g_currentV8Runtime st = Some (self rt)) then
        set_envStack (V8NoopPushEnvironment :: g_envStack st) st
      else if IsLocked then
        if TryPush then
          let '(last, st) := V8PushEnvironment_enter rt st in
          set_envStack (V8LitePushEnvironment rt last :: g_envStack st) st
        else
          set_envStack (V8LiteNoRuntimePushEnvironment :: g_envStack st) st
      else
        let '(last, st) := V8PushEnvironment_enter rt st in
        set_envStack (V8LitePushEnvironment rt last :: g_envStack st) st
  | None =>
      set_envStack (V8LiteNoRuntimePushEnvironment :: g_envStack st) st
  end.

(** The handler for leaving: [g_envStack.pop()] destroys the top entry. *)
Definition node_scope_leave (st : thread_state) : thread_state :=
  match g_envStack st with
  | [] => st
  | top :: stack =>
      let st := set_envStack stack st in
      match top with
      | V8LitePushEnvironment rt last => V8PushEnvironment_leave rt last st
      | V8LiteNoRuntimePushEnvironment => st
      | V8NoopPushEnvironment => st
      end
  end.

(** ** Routine slots *)

Inductive routine_kind :=
| TickRoutine | EventRoutine | CallRefRoutine | DuplicateRefRoutine
| DeleteRefRoutine | StackTraceRoutine | UnhandledPromiseRejectionRoutine.

#[global] Instance routine_kind_eq_dec : EqDecision routine_kind.
Proof. solve_decision. Defined.

(** The member behind each kind. *)
Definition routine (k : routine_kind) (rt : V8ScriptRuntime) : option nat :=
  match k with
  | TickRoutine => m_tickRoutine rt
  | EventRoutine => m_eventRoutine rt
  | CallRefRoutine => m_callRefRoutine rt
  | DuplicateRefRoutine => m_duplicateRefRoutine rt
  | DeleteRefRoutine => m_deleteRefRoutine rt
  | StackTraceRoutine => m_stackTraceRoutine rt
  | UnhandledPromiseRejectionRoutine => m_unhandledPromiseRejectionRoutine rt
  end.

(** Assignment to the member behind a kind. *)
Definition assign_routine (k : routine_kind) (v : option nat) (rt : V8ScriptRuntime)
    : V8ScriptRuntime :=
  let pick k' := if decide (k' = k) then v else routine k' rt in
  {| self := self rt; m_taskQueue := m_taskQueue rt;
     m_tickRoutine := pick TickRoutine;
     m_eventRoutine := pick EventRoutine;
     m_callRefRoutine := pick CallRefRoutine;
     m_duplicateRefRoutine := pick DuplicateRefRoutine;
     m_deleteRefRoutine := pick DeleteRefRoutine;
     m_stackTraceRoutine := pick StackTraceRoutine;
     m_unhandledPromiseRejectionRoutine := pick UnhandledPromiseRejectionRoutine;
     m_stringValues := m_stringValues rt; m_curStringValue := m_curStringValue rt |}.

(** [SetTickRoutine] and its six siblings: the member is assigned only
    while it is empty. *)
Definition SetTickRoutine (tickRoutine : nat) (rt : V8ScriptRuntime) : V8ScriptRuntime :=
  match m_tickRoutine rt with
  | None => assign_routine TickRoutine (Some tickRoutine) rt
  | Some _ => rt
  end.

Definition SetEventRoutine (eventRoutine : nat) (rt : V8ScriptRuntime) : V8ScriptRuntime :=
  match m_eventRoutine rt with
  | None => assign_routine EventRoutine (Some eventRoutine) rt
  | Some _ => rt
  end.

Definition SetCallRefRoutine (routine : nat) (rt : V8ScriptRuntime) : V8ScriptRuntime :=
  match m_callRefRoutine rt with
  | None => assign_routine CallRefRoutine (Some routine) rt
  | Some _ => rt
  end.

Definition SetDuplicateRefRoutine (routine : nat) (rt : V8ScriptRuntime) : V8ScriptRuntime :=
  match m_duplicateRefRoutine rt with
  | None => assign_routine DuplicateRefRoutine (Some routine) rt
  | Some _ => rt
  end.

Definition SetDeleteRefRoutine (routine : nat) (rt : V8ScriptRuntime) : V8ScriptRuntime :=
  match m_deleteRefRoutine rt with
  | None => assign_routine DeleteRefRoutine (Some routine) rt
  | Some _ => rt
  end.

Definition SetStackTraceRoutine (routine : nat) (rt : V8ScriptRuntime) : V8ScriptRuntime :=
  match m_stackTraceRoutine rt with
  | None => assign_routine StackTraceRoutine (Some routine) rt
  | Some _ => rt
  end.

Definition SetUnhandledPromiseRejectionRoutine (routine : nat) (rt : V8ScriptRuntime)
    : V8ScriptRuntime :=
  match m_unhandledPromiseRejectionRoutine rt with
  | None => assign_routine UnhandledPromiseRejectionRoutine (Some routine) rt
  | Some _ => rt
  end.

(** The registration entry point of each kind ([V8_SetTickFunction] and
    its siblings), applied to the guest callable [f]. *)
Definition register (k : routine_kind) (f : nat) (rt : V8ScriptRuntime) : V8ScriptRuntime :=
  match k with
  | TickRoutine => SetTickRoutine f rt
  | EventRoutine => SetEventRoutine f rt
  | CallRefRoutine => SetCallRefRoutine f rt
  | DuplicateRefRoutine => SetDuplicateRefRoutine f rt
  | DeleteRefRoutine => SetDeleteRefRoutine f rt
  | StackTraceRoutine => SetStackTraceRoutine f rt
  | UnhandledPromiseRejectionRoutine => SetUnhandledPromiseRejectionRoutine f rt
  end.

(** A script's registrations, in the order it makes them. *)
Definition register_all (regs : list (routine_kind * nat)) (rt : V8ScriptRuntime)
    : V8ScriptRuntime :=
  foldl (fun r '(k, f) => register k f r) rt regs.

(** What [Destroy] does to the members of the runtime that the record
    keeps: its five assignments, in their order; the stack-trace and
    unhandled-rejection routines are not assigned.  [Destroy] as a whole,
    with the scope it enters and the context it resets, follows the
    builds further down. *)
Definition Destroy_routines (rt : V8ScriptRuntime) : V8ScriptRuntime :=
  assign_routine DuplicateRefRoutine None
    (assign_routine DeleteRefRoutine None
      (assign_routine CallRefRoutine None
        (assign_routine TickRoutine None
          (assign_routine EventRoutine None rt)))).

(** ** Reference registry *)

(** [RefAndPersistent]: the owned identifier, the persistent handle to the
    guest-visible function (empty after [Reset]), the runtime, and whether
    the handle has been made weak. *)
Record RefAndPersistent := {
  ref : bytes;
  handle : option nat;
  runtime : nat;
  weak : bool
}.

(** The allocated [RefAndPersistent] objects by address, the data pointer
    each guest-visible function was created with, and the deferred-release
    queue (oldest first). *)
Record registry := {
  heap : gmap nat RefAndPersistent;
  functions : gmap nat nat;
  g_cleanUpFuncRefs : list nat
}.

(** The identifier [V8_MakeFunctionReference] reads from its argument: a
    string through its [const char*], a [Uint8Array] with its length,
    anything else as the empty string. *)
Definition refString (arg0 : jsvalue) : bytes :=
  match arg0 with
  | JSString utf8 => c_str utf8
  | JSArrayBufferView Uint8Array store offset len => view_contents store offset len
  | _ => []
  end.

(** [V8_MakeFunctionReference].  [outFunction] is what [Function::New]
    gave: the new function object, or nothing.  The result is the return
    value seen by the script. *)
Definition V8_MakeFunctionReference (rt : V8ScriptRuntime) (arg0 : jsvalue)
    (outFunction : option nat) (reg : registry) : jsvalue * registry :=
  let data := fresh (dom (heap reg)) in
  let entry := {| ref := refString arg0; handle := None; runtime := self rt; weak := false |} in
  let reg := {| heap := <[data := entry]> (heap reg); functions := functions reg;
                g_cleanUpFuncRefs := g_cleanUpFuncRefs reg |} in
  match outFunction with
  | Some outFn =>
      (JSFunction outFn,
       {| heap := <[data := {| ref := ref entry; handle := Some outFn;
                               runtime := runtime entry; weak := true |}]> (heap reg);
          functions := <[outFn := data]> (functions reg);
          g_cleanUpFuncRefs := g_cleanUpFuncRefs reg |})
  | None =>
      (JSUndefined,
       {| heap := delete data (heap reg); functions := functions reg;
          g_cleanUpFuncRefs := g_cleanUpFuncRefs reg |})
  end.

(** [FnRefWeakCallback], called by the garbage collector with the
    parameter the handle was made weak with. *)
Definition FnRefWeakCallback (data : nat) (reg : registry) : registry :=
  {| heap := alter (fun e => {| ref := ref e; handle := None;
                                runtime := runtime e; weak := weak e |}) data (heap reg);
     functions := functions reg;
     g_cleanUpFuncRefs := g_cleanUpFuncRefs reg ++ [data] |}.

(** The loop of the [OnTick] handler: [try_pop] then [delete], until the
    queue is empty. *)
Fixpoint drain_loop (queue : list nat) (h : gmap nat RefAndPersistent)
    : gmap nat RefAndPersistent :=
  match queue with
  | [] => h
  | deleteRef :: queue' => drain_loop queue' (delete deleteRef h)
  end.

Definition OnTick_drain (reg : registry) : registry :=
  {| heap := drain_loop (g_cleanUpFuncRefs reg) (heap reg);
     functions := functions reg;
     g_cleanUpFuncRefs := [] |}.

(** ** Calls across the boundary *)

Inductive result_t := FX_S_OK | FX_E_INVALIDARG.

(** What a callback installed with [Function::New] leaves behind: a return
    value, or a thrown [Error] with its message. *)
Inductive callback_result :=
| ReturnValue (v : jsvalue)
| ThrowException (message : bytes).

Section Bridge.

(** The guest: what calling the function object [f] with [args] does, to
    the thread and as an outcome.  A guest function may itself come back
    into the bridge. *)
Variable guest : nat -> list jsvalue -> thread_state -> call_outcome * thread_state.

(** The host's call-ref interface, on the identifier it reads through its
    [char*] and the argument bytes. *)
Variable host_InvokeFunctionReference : bytes -> bytes -> host_reply.

(** The decoder of serialized objects ([msgpack::unpack], [ConvertToJSON]
    and [JSON::Parse] in a row); nothing on any failure. *)
Variable decode_object : bytes -> option jsvalue.

(** Modelled from the spec: [ScriptNativeContext::Invoke] and
    [ProcessResults] are declared in [ScriptInvoker.h]; a native call takes
    the pushed arguments and reports zero or more typed results, in the
    order [ProcessResults] visits them, or raises a script error. *)
Variable native_Invoke : Z -> list native_arg -> result (list native_result).

(** [msgpack::unpack] of a frame list followed by the re-packing of each
    element; nothing when the payload does not decode (an exception). *)
Variable unpack_frames : bytes -> option (list bytes).

(** [Function::Call]. *)
Definition Call (f : nat) (args : list jsvalue) (st : thread_state)
    : call_outcome * thread_state :=
  guest f args (emit (EvCall f args) st).

(** *** Results of native calls *)

(** [V8ScriptNativeContext::ProcessResult], by result type. *)
Definition ProcessResult (value : native_result) : jsvalue :=
  match value with
  | ResBool b => JSBoolean b
  | ResInt32 n => JSNumber (Z_to_double n)
  | ResInt64 n => JSNumber (Z_to_double n)
  | ResFloat x => JSNumber (float_to_double x)
  | ResVector x y z =>
      let result_ := replicate 3 JSUndefined in
      let result_ := array_set result_ 0 (JSNumber (float_to_double x)) in
      let result_ := array_set result_ 1 (JSNumber (float_to_double y)) in
      let result_ := array_set result_ 2 (JSNumber (float_to_double z)) in
      JSArray result_
  | ResCString (Some s) => JSString (c_str s)
  | ResCString None => JSNull
  | ResString str => JSString str
  | ResObject data => default JSNull (decode_object data)
  end.

(** [ProcessResults] driving the lambda over the results of the call. *)
Definition collect_results (results : list native_result) : jsvalue :=
  fst (foldl (fun st value => collect_result st (ProcessResult value))
             (JSUndefined, 0%nat) results).

(** [V8_InvokeNative]: push the arguments from [baseArgs] on, invoke,
    gather the results.  The runtime comes back with its string arena as
    the pushes left it. *)
Definition V8_InvokeNative (rt : V8ScriptRuntime) (args : list jsvalue) (hash : Z)
    (baseArgs : nat) : result (jsvalue * V8ScriptRuntime) :=
  match push_arguments (drop baseArgs args) (rt, []) with
  | Err e => Err e
  | Ok (_, (rt, context)) =>
      match native_Invoke hash context with
      | Err e => Err e
      | Ok results => Ok (collect_results results, rt)
      end
  end.

(** *** The invocation trampoline *)

(** [V8_InvokeFunctionReference] on the [RefAndPersistent] behind
    [args.Data()].  The cast of [args[0]] to a view is unchecked: on
    anything else the source has no defined behaviour, and the model gives
    no result. *)
Definition V8_InvokeFunctionReference (refData : RefAndPersistent) (arg0 : jsvalue)
    (st : thread_state) : option callback_result * thread_state :=
  match arg0 with
  | JSArrayBufferView _ store offset len =>
      let argsBuffer := view_contents store offset len in
      let refId := c_str (ref refData) in
      let st := emit (EvHostInvoke refId argsBuffer) st in
      match host_InvokeFunctionReference refId argsBuffer with
      | HostFailed last_error =>
          let error := default (String.list_byte_of_string "Unknown") last_error in
          (Some (ThrowException (c_str error)), st)
      | HostOk retvalBuffer =>
          let outValue := default [] retvalBuffer in
          (Some (ReturnValue (new_Uint8Array outValue)), st)
      end
  | _ => (None, st)
  end.

(** The script calling the function object [f], a callable made by
    [V8_MakeFunctionReference]. *)
Definition invoke_reference (reg : registry) (f : nat) (arg0 : jsvalue)
    (st : thread_state) : option callback_result * thread_state :=
  match functions reg !! f with
  | Some data =>
      match heap reg !! data with
      | Some refData => V8_InvokeFunctionReference refData arg0 st
      | None => (None, st)
      end
  | None => (None, st)
  end.

(** *** The closures behind the routines *)

(** Each [V8_Set...Function] wraps the guest callable [f] in a closure
    with its own argument list and error policy; [rt] is the captured
    runtime. *)

Definition tick_closure (rt : V8ScriptRuntime) (f : nat) (time : double)
    (st : thread_state) : thread_state :=
  let '(value, st) := Call f [JSNumber time] st in
  match value with
  | Threw e => emit (EvScriptTrace TraceTick (self rt) e) st
  | Returned _ => st
  end.

Definition event_closure (rt : V8ScriptRuntime) (f : nat)
    (eventName eventPayload eventSource : bytes) (st : thread_state) : thread_state :=
  let arguments := [JSString (c_str eventName); new_Uint8Array eventPayload;
                    JSString (c_str eventSource)] in
  let '(value, st) := Call f arguments st in
  match value with
  | Threw e => emit (EvScriptTrace TraceEvent (self rt) e) st
  | Returned _ => st
  end.

Definition callRef_closure (rt : V8ScriptRuntime) (f : nat) (refId : Z)
    (argsSerialized : bytes) (st : thread_state) : option bytes * thread_state :=
  let arguments := [JSNumber (Z_to_double refId); new_Uint8Array argsSerialized] in
  let '(maybeValue, st) := Call f arguments st in
  match maybeValue with
  | Threw e => (None, emit (EvScriptTrace TraceCallRef (self rt) e) st)
  | Returned (JSArrayBufferView _ store offset len) =>
      (Some (view_contents store offset len), st)
  | Returned _ => (None, st)
  end.

Definition deleteRef_closure (rt : V8ScriptRuntime) (f : nat) (refId : Z)
    (st : thread_state) : thread_state :=
  let '(value, st) := Call f [JSNumber (Z_to_double refId)] st in
  match value with
  | Threw e => emit (EvScriptTrace TraceDeleteRef (self rt) e) st
  | Returned _ => st
  end.

Definition duplicateRef_closure (rt : V8ScriptRuntime) (f : nat) (refId : Z)
    (st : thread_state) : Z * thread_state :=
  let '(value, st) := Call f [JSNumber (Z_to_double refId)] st in
  match value with
  | Threw e => (-1, emit (EvScriptTrace TraceDuplicateRef (self rt) e) st)
  | Returned realValue =>
      if IsInt32 realValue then (Int32Value realValue, st) else (-1, st)
  end.

(** The boundaries are pointers to a [V8Boundary], or null; the result is
    [*blob] (with [*size] its length), left null unless the guest returned
    a view. *)
Definition stackTrace_closure (rt : V8ScriptRuntime) (f : nat) (start end_ : option Z)
    (st : thread_state) : option bytes * thread_state :=
  let hint (b : option Z) :=
    match b with Some h => JSNumber (Z_to_double h) | None => JSNull end in
  let '(mv, st) := Call f [hint start; hint end_] st in
  match mv with
  | Threw e => (None, emit (EvScriptTrace TraceStackTrace (self rt) e) st)
  | Returned (JSArrayBufferView _ store offset len) =>
      (Some (view_contents store offset len), st)
  | Returned _ => (None, st)
  end.

Definition rejection_closure (rt : V8ScriptRuntime) (f : nat) (event_ : Z)
    (promise : jsvalue) (value : option jsvalue) (st : thread_state) : thread_state :=
  let value := default JSUndefined value in
  let '(r, st) := Call f [JSNumber (Z_to_double event_); promise; value] st in
  match r with
  | Threw e => emit (EvScriptTrace TraceRejection (self rt) e) st
  | Returned _ => st
  end.

Definition HandlePromiseRejection (rt : V8ScriptRuntime) (event_ : Z)
    (promise : jsvalue) (value : option jsvalue) (st : thread_state) : thread_state :=
  match m_unhandledPromiseRejectionRoutine rt with
  | Some f => rejection_closure rt f event_ promise value st
  | None => st
  end.

(** *** Dispatch surface *)

(** The members are read from [rt] as they are when the operation starts.
    [Tick] picks between [V8PushEnvironment] and its variant without
    locker by [v8::Locker::IsLocked]; the two differ only in the lock,
    which the model leaves out.  [time] is the clock reading. *)
Definition Tick (rt : V8ScriptRuntime) (time : double) (st : thread_state)
    : result_t * thread_state :=
  match m_tickRoutine rt with
  | Some f =>
      let '(_, st) := V8PushEnvironment rt (fun st => (tt, tick_closure rt f time st)) st in
      (FX_S_OK, st)
  | None => (FX_S_OK, st)
  end.

Definition TriggerEvent (rt : V8ScriptRuntime) (eventName eventPayload eventSource : bytes)
    (st : thread_state) : result_t * thread_state :=
  match m_eventRoutine rt with
  | Some f =>
      let '(_, st) :=
        V8PushEnvironment rt
          (fun st => (tt, event_closure rt f eventName eventPayload eventSource st)) st in
      (FX_S_OK, st)
  | None => (FX_S_OK, st)
  end.

(** The result carries [*retval]; [rv.CopyTo(retval)] hands the buffer
    over (or null) and succeeds. *)
Definition CallRef (rt : V8ScriptRuntime) (refIdx : Z) (argsSerialized : bytes)
    (st : thread_state) : result_t * option bytes * thread_state :=
  let retval : option bytes := None in
  match m_callRefRoutine rt with
  | Some f =>
      let '(rv, st) := V8PushEnvironment rt (callRef_closure rt f refIdx argsSerialized) st in
      (FX_S_OK, rv, st)
  | None => (FX_S_OK, retval, st)
  end.

(** The result carries [*outRefIdx]. *)
Definition DuplicateRef (rt : V8ScriptRuntime) (refIdx : Z) (st : thread_state)
    : result_t * Z * thread_state :=
  let outRefIdx := -1 in
  match m_duplicateRefRoutine rt with
  | Some f =>
      let '(outRefIdx, st) := V8PushEnvironment rt (duplicateRef_closure rt f refIdx) st in
      (FX_S_OK, outRefIdx, st)
  | None => (FX_S_OK, outRefIdx, st)
  end.

Definition RemoveRef (rt : V8ScriptRuntime) (refIdx : Z) (st : thread_state)
    : result_t * thread_state :=
  match m_deleteRefRoutine rt with
  | Some f =>
      let '(_, st) := V8PushEnvironment rt (fun st => (tt, deleteRef_closure rt f refIdx st)) st in
      (FX_S_OK, st)
  | None => (FX_S_OK, st)
  end.

(** No result when the payload does not decode: the exception of the
    decoder leaves the function (the scope is left on the way). *)
Definition WalkStack (rt : V8ScriptRuntime) (boundaryStart boundaryEnd : option Z)
    (st : thread_state) : option result_t * thread_state :=
  match m_stackTraceRoutine rt with
  | Some f =>
      V8PushEnvironment rt
        (fun st =>
           let '(out, st) := stackTrace_closure rt f boundaryStart boundaryEnd st in
           match out with
           | Some blob =>
               match unpack_frames blob with
               | Some o => (Some FX_S_OK, foldl (fun st e => emit (EvSubmitStackFrame e) st) st o)
               | None => (None, st)
               end
           | None => (Some FX_S_OK, st)
           end) st
  | None => (Some FX_S_OK, st)
  end.

End Bridge.

(** ** Statements used by the properties *)

(** The operation that invokes the routine of kind [k] calls the guest
    callable [f]: inside an environment scope of [rt] (the rejection
    handler enters none) the guest function [f] is called with the
    arguments of the kind, an exception it throws is traced, and the
    result of the operation is read off what the call returned. *)
Definition exercises (k : routine_kind) (f : nat) (rt : V8ScriptRuntime) : Prop :=
  forall (guest : nat -> list jsvalue -> thread_state -> call_outcome * thread_state)
         (st : thread_state),
  let entered := (V8PushEnvironment_enter rt st).2 in
  let leave := V8PushEnvironment_leave rt (g_currentV8Runtime st) in
  let traced (site : trace_site) (out : call_outcome * thread_state) :=
    match out.1 with
    | Threw e => emit (EvScriptTrace site (self rt) e) out.2
    | Returned _ => out.2
    end in
  match k with
  | TickRoutine => forall time,
      let out := Call guest f [JSNumber time] entered in
      Tick guest rt time st = (FX_S_OK, leave (traced TraceTick out))
  | EventRoutine => forall name payload source,
      let out := Call guest f [JSString (c_str name); new_Uint8Array payload;
                               JSString (c_str source)] entered in
      TriggerEvent guest rt name payload source st = (FX_S_OK, leave (traced TraceEvent out))
  | CallRefRoutine => forall refIdx args,
      let out := Call guest f [JSNumber (Z_to_double refIdx); new_Uint8Array args] entered in
      CallRef guest rt refIdx args st
      = (FX_S_OK,
         match out.1 with
         | Returned (JSArrayBufferView _ store offset len) =>
             Some (view_contents store offset len)
         | _ => None
         end,
         leave (traced TraceCallRef out))
  | DuplicateRefRoutine => forall refIdx,
      let out := Call guest f [JSNumber (Z_to_double refIdx)] entered in
      DuplicateRef guest rt refIdx st
      = (FX_S_OK,
         match out.1 with
         | Returned realValue => if IsInt32 realValue then Int32Value realValue else -1
         | Threw _ => -1
         end,
         leave (traced TraceDuplicateRef out))
  | DeleteRefRoutine => forall refIdx,
      let out := Call guest f [JSNumber (Z_to_double refIdx)] entered in
      RemoveRef guest rt refIdx st = (FX_S_OK, leave (traced TraceDeleteRef out))
  | StackTraceRoutine => forall unpack_frames start end_,
      let hint (b : option Z) :=
        match b with Some h => JSNumber (Z_to_double h) | None => JSNull end in
      let out := Call guest f [hint start; hint end_] entered in
      let frames : option (option (list bytes)) :=
        match out.1 with
        | Returned (JSArrayBufferView _ store offset len) =>
            Some (unpack_frames (view_contents store offset len))
        | _ => None
        end in
      WalkStack guest unpack_frames rt start end_ st
      = (match frames with Some None => None | _ => Some FX_S_OK end,
         leave match frames with
               | Some (Some o) =>
                   foldl (fun st e => emit (EvSubmitStackFrame e) st)
                     (traced TraceStackTrace out) o
               | _ => traced TraceStackTrace out
               end)
  | UnhandledPromiseRejectionRoutine => forall event_ promise value,
      let out := Call guest f [JSNumber (Z_to_double event_); promise;
                               default JSUndefined value] st in
      HandlePromiseRejection guest rt event_ promise value st = traced TraceRejection out
  end.

(** What happens to a runtime between its creation and the end of the
    process, as far as its members go: a script registers a routine (the
    [V8_Set...Function] entry points), a native call stores a string
    argument ([AssignStringValue]), or the host destroys the runtime
    ([Destroy], by the members it assigns). *)
Inductive runtime_op :=
| OpRegister (k : routine_kind) (f : nat)
| OpAssignStringValue (value : jsvalue)
| OpDestroy.

Definition run_op (rt : V8ScriptRuntime) (op : runtime_op) : V8ScriptRuntime :=
  match op with
  | OpRegister k f => register k f rt
  | OpAssignStringValue value => (AssignStringValue value rt).2
  | OpDestroy => Destroy_routines rt
  end.

Definition run_ops (ops : list runtime_op) (rt : V8ScriptRuntime) : V8ScriptRuntime :=
  foldl run_op rt ops.

(** The well-formed arena: fifty slots and the cursor among them. *)
Definition arena_wf (rt : V8ScriptRuntime) : Prop :=
  length (m_stringValues rt) = countof_m_stringValues /\
  (m_curStringValue rt < countof_m_stringValues)%nat.

(** The number [v] is the integer [n]: its value [(-1)^s * m * 2^e] equals
    [n] exactly (either zero for 0). *)
Definition has_integer_value (v : spec_float) (n : Z) : Prop :=
  match v with
  | S754_zero _ => n = 0
  | S754_finite s m e =>
      if 0 <=? e then n = cond_Zopp s (Z.pos m * 2 ^ e)
      else n * 2 ^ (- e) = cond_Zopp s (Z.pos m)
  | S754_infinity _ | S754_nan => False
  end.

(** The argument of [V8_MakeFunctionReference] carries the identifier
    bytes [id]: as a string, or as a [Uint8Array] over them. *)
Definition carries (arg0 : jsvalue) (id : bytes) : Prop :=
  match arg0 with
  | JSString utf8 => utf8 = id
  | JSArrayBufferView Uint8Array store offset len => view_contents store offset len = id
  | _ => False
  end.

(** The events of entering and leaving scopes and of checkpoints, the
    guest calls and the rest left out. *)
Fixpoint scope_events (l : list event) : list event :=
  match l with
  | [] => []
  | EvEnter r :: l' => EvEnter r :: scope_events l'
  | EvLeave r :: l' => EvLeave r :: scope_events l'
  | EvPerformCheckpoint r :: l' => EvPerformCheckpoint r :: scope_events l'
  | _ :: l' => scope_events l'
  end.

(** ** Sample inputs *)

Definition idle_thread : thread_state :=
  {| g_currentV8Runtime := None; g_isV8InGc := 0; g_envStack := []; events := [] |}.

Definition empty_registry : registry :=
  {| heap := ∅; functions := ∅; g_cleanUpFuncRefs := [] |}.

(** A created runtime at address 7 whose script has registered function 1
    for ticks, 2 for events and 3 for duplicating references. *)
Definition sample_runtime : V8ScriptRuntime :=
  register_all [(TickRoutine, 1%nat); (EventRoutine, 2%nat); (DuplicateRefRoutine, 3%nat)]
    (Create_taskQueue (new_V8ScriptRuntime 7)).

(** The registry after the script of the sample runtime has made one
    reference, with the identifier "foo": function object 1. *)
Definition sample_registry : registry :=
  (V8_MakeFunctionReference sample_runtime (JSString [x66; x6f; x6f]) (Some 1%nat)
     empty_registry).2.

(** A guest whose functions return [undefined] at once. *)
Definition idle_guest (f : nat) (args : list jsvalue) (st : thread_state)
    : call_outcome * thread_state :=
  (Returned JSUndefined, st).

(** A guest whose tick function (1) calls a native that makes the host
    deliver an event to the same runtime before it returns; the event
    handler returns at once. *)
Definition reentrant_guest (f : nat) (args : list jsvalue) (st : thread_state)
    : call_outcome * thread_state :=
  match f with
  | 1%nat =>
      let '(_, st) := TriggerEvent idle_guest sample_runtime [x65] [] [] st in
      (Returned JSUndefined, st)
  | _ => (Returned JSUndefined, st)
  end.

(** A guest whose functions all return the number [d]. *)
Definition constant_guest (d : double) (f : nat) (args : list jsvalue) (st : thread_state)
    : call_outcome * thread_state :=
  (Returned (JSNumber d), st).

(** A guest whose functions all throw [undefined]. *)
Definition throwing_guest (f : nat) (args : list jsvalue) (st : thread_state)
    : call_outcome * thread_state :=
  (Threw JSUndefined, st).

(** A host whose call-ref interface answers every call with the argument
    bytes. *)
Definition echo_host (refId args : bytes) : host_reply := HostOk (Some args).

(** A decoder of frame lists that decodes nothing. *)
Definition no_frames (blob : bytes) : option (list bytes) := None.

(** ** Further entry points *)

(** A float of the binary32 format. *)
Definition valid_float (x : float) : Prop := valid_binary prec32 emax32 x = true.

(** *** Arguments that are read without running script *)

(** The kinds of argument [PushArgument] reads without asking the script
    for a property: for an array it gets the elements, and for any other
    object the "__data" property, through [Get], which can run a getter
    of the script. *)
Definition scalar_argument (arg : jsvalue) : bool :=
  match arg with
  | JSUndefined | JSNull | JSBoolean _ | JSBooleanObject _ | JSNumber _ | JSString _
  | JSExternal _ | JSArrayBufferView _ _ _ _ => true
  | JSArray _ | JSObject _ | JSFunction _ | JSOther _ => false
  end.

(** *** Invoking a native by its hash *)

(** ECMAScript ToUint32 of a number: truncate, then wrap into 32 bits; an
    infinity or a NaN gives 0. *)
Definition to_uint32 (v : double) : Z :=
  match trunc v with
  | Some t => t mod 2 ^ 32
  | None => 0
  end.

(** [Value::Uint32Value] of a number.  The conversion of the other kinds
    of value goes through ToNumber, which is not represented: they give
    nothing. *)
Definition Uint32Value (v : jsvalue) : option Z :=
  match v with
  | JSNumber d => Some (to_uint32 d)
  | _ => None
  end.

(** Modelled from the spec: [ScriptError] and [ScriptErrorf] are declared
    in [ScriptInvoker.h]; they raise an exception that carries the message
    given, [ScriptErrorf] after formatting it. *)
Definition what (e : script_error) : bytes :=
  match e with
  | ScriptError msg => String.list_byte_of_string msg
  | ScriptErrorf_invalid_value str =>
      String.list_byte_of_string "invalid V8 value: " ++ c_str str
  end.

(** What a native-invoking callback leaves behind: the return value (with
    the runtime as the argument pushes left it), or a thrown [Error] with
    its message. *)
Inductive native_call_result :=
| NativeReturn (v : jsvalue) (rt : V8ScriptRuntime)
| NativeThrow (message : bytes).

(** [V8_TryCatch] around a body that returns or raises a [std::exception]:
    the exception becomes a script [Error] whose message is [what()]. *)
Definition V8_TryCatch (body : result (jsvalue * V8ScriptRuntime)) : native_call_result :=
  match body with
  | Ok (v, rt) => NativeReturn v rt
  | Err e => NativeThrow (c_str (what e))
  end.

(** [V8_InvokeNativeHash]: the hash is [args[1]] for the low 32 bits and
    [args[0]] for the high ones; the arguments of the native start at
    index 2. *)
Definition V8_InvokeNativeHash
    (decode_object : bytes -> option jsvalue)
    (native_Invoke : Z -> list native_arg -> result (list native_result))
    (rt : V8ScriptRuntime) (args : list jsvalue) : option native_call_result :=
  if (length args <? 2)%nat then
    Some (V8_TryCatch
            (Err (ScriptError "wrong argument count (needs at least two hash integers)")))
  else
    match Uint32Value (array_get args 1), Uint32Value (array_get args 0) with
    | Some lo, Some hi =>
        let hash := Z.lor lo (Z.shiftl hi 32) in
        Some (V8_TryCatch (V8_InvokeNative decode_object native_Invoke rt args hash 2))
    | _, _ => None
    end.

(** *** Pointer fields *)

(** The fields [V8_GetPointerField] is instantiated at, in the table of
    the script's globals: "pointerValueIntInitialized" and
    "pointerValueFloatInitialized". *)
Inductive pointer_field := PointerValueInteger | PointerValueFloat.

(** [Value::IntegerValue] of a number: the truncation when it fits 64
    bits, the nearest bound otherwise, 0 for a NaN. *)
Definition IntegerValue (v : jsvalue) : option Z :=
  match v with
  | JSNumber d =>
      Some match d with
           | S754_nan => 0
           | S754_infinity s => if s then INT64_MIN else INT64_MAX
           | _ =>
               match trunc d with
               | Some t => Z.max INT64_MIN (Z.min INT64_MAX t)
               | None => 0
               end
           end
  | _ => None
  end.

(** [V8_GetPointerField<field>].  [GetPointerField] is
    [ScriptNativeContext::GetPointerField], which hands out the address of
    a slot initialized with [value].  For the float field the source
    narrows the argument to [fvalue] and then reads the low 32 bits of
    [value] itself, which is still 0. *)
Definition V8_GetPointerField (GetPointerField : pointer_field -> Z -> Z)
    (field : pointer_field) (arg : jsvalue) : option jsvalue :=
  let value := 0 in
  match field with
  | PointerValueInteger =>
      match IntegerValue arg with
      | Some i => Some (JSExternal (GetPointerField field (i mod 2 ^ 64)))
      | None => None
      end
  | PointerValueFloat =>
      match arg with
      | JSNumber d =>
          let fvalue := static_cast_float d in
          let value := value mod 2 ^ 32 in
          Some (JSExternal (GetPointerField field value))
      | _ => None
      end
  end.

(** *** Warnings *)

(** The text [EmitWarning] hands to [console.warn]: "[channel] message"
    without its last character when that is a newline. *)
Definition warning_text (channel message : bytes) : bytes :=
  let messageStr := [x5b] ++ c_str channel ++ [x5d; x20] ++ c_str message in
  let length_ := length messageStr in
  let length_ :=
    match last messageStr with
    | Some x0a => (length_ - 1)%nat
    | _ => length_
    end in
  take length_ messageStr.

(** [EmitWarning].  [global] is the global object of [m_context], by its
    data properties, or nothing when [m_context] is empty.  The casts of
    [console] to an object and of [warn] to a function are unchecked:
    where they do not hold the source has no defined behaviour and the
    model gives no result.  No environment scope is entered and the
    outcome of the call is not looked at. *)
Definition EmitWarning
    (guest : nat -> list jsvalue -> thread_state -> call_outcome * thread_state)
    (global : option (list (string * jsvalue))) (channel message : bytes)
    (st : thread_state) : option (result_t * thread_state) :=
  match global with
  | None => Some (FX_S_OK, st)
  | Some props =>
      match object_get props "console" with
      | JSObject consoleObject =>
          match object_get consoleObject "warn" with
          | JSFunction warnFunction =>
              let '(_, st) :=
                Call guest warnFunction [JSString (warning_text channel message)] st in
              Some (FX_S_OK, st)
          | _ => None
          end
      | _ => None
      end
  end.

(** *** Which runtime takes a file *)

(** The build of the component and the process it runs in: the
    preprocessor symbols [V8_NODE], [IS_FXSERVER] and [V8_12_2], and what
    [launch::IsSDK] answers. *)
Record build := {
  V8_NODE : bool;
  IS_FXSERVER : bool;
  V8_12_2 : bool;
  IsSDK : bool
}.

Definition UseNode (b : build) : bool :=
  if IS_FXSERVER b then true else IsSDK b.

Definition UseThis (b : build) : bool :=
  if V8_NODE b
  then (if negb (UseNode b) then false else true)
  else (if UseNode b then false else true).

Fixpoint starts_with (needle s : bytes) : bool :=
  match needle, s with
  | [], _ => true
  | _ :: _, [] => false
  | a :: needle', b :: s' => Byte.eqb a b && starts_with needle' s'
  end.

(** [strstr(haystack, needle) != nullptr]. *)
Fixpoint strstr (haystack needle : bytes) : bool :=
  starts_with needle haystack ||
  match haystack with
  | [] => false
  | _ :: haystack' => strstr haystack' needle
  end.

(** [!strcmp(a, b)]. *)
Fixpoint strcmp_eq (a b : bytes) : bool :=
  match a, b with
  | [], [] => true
  | x :: a', y :: b' => Byte.eqb x y && strcmp_eq a' b'
  | _, _ => false
  end.

(** [HandlesFile].  [node_version] is the resource's "node_version"
    metadata, nothing when it declares none (the preset "16" then
    stays). *)
Definition HandlesFile (b : build) (fileName : bytes) (node_version : option bytes) : bool :=
  let isInLegacyRuntime := negb (V8_12_2 b) in
  if negb (UseThis b) then false
  else if negb (strstr (c_str fileName) [x2e; x6a; x73]) then false
  else
    let versionStr := default [x31; x36] node_version in
    let useLegacyRuntime := strcmp_eq [x31; x36] (c_str versionStr) in
    if Bool.eqb useLegacyRuntime isInLegacyRuntime then true else false.

(** *** The end of a runtime *)

(** [Destroy].  The five routines are emptied first.  The build with node
    then enters an environment scope and, where node is in use, takes the
    runtime's environment out of [g_envRuntimes] (environments and
    runtimes by their addresses) and frees it; [FreeEnvironment] is
    [node::FreeEnvironment], which may run code of the environment and
    through it reach the runtime and the thread.  The build without node
    enters the plain [fx::PushEnvironment].  Then the context is reset,
    and the scope is left on the way out.  The result carries the runtime,
    [m_context] (by the global object's properties, as in [EmitWarning],
    here always empty) and [g_envRuntimes] as they are afterwards. *)
Definition Destroy (b : build)
    (FreeEnvironment : V8ScriptRuntime -> thread_state -> V8ScriptRuntime * thread_state)
    (m_nodeEnvironment : nat) (rt : V8ScriptRuntime) (g_envRuntimes : gmap nat nat)
    (st : thread_state)
    : result_t * V8ScriptRuntime * option (list (string * jsvalue)) * gmap nat nat
      * thread_state :=
  let rt := Destroy_routines rt in
  if V8_NODE b then
    let '(m_lastV8Runtime, st) := V8PushEnvironment_enter rt st in
    let '(g_envRuntimes, (rt, st)) :=
      if UseNode b
      then (delete m_nodeEnvironment g_envRuntimes, FreeEnvironment rt st)
      else (g_envRuntimes, (rt, st)) in
    let m_context : option (list (string * jsvalue)) := None in
    (FX_S_OK, rt, m_context, g_envRuntimes, V8PushEnvironment_leave rt m_lastV8Runtime st)
  else
    let st := emit (EvEnter (self rt)) st in
    let m_context : option (list (string * jsvalue)) := None in
    (FX_S_OK, rt, m_context, g_envRuntimes, emit (EvLeave (self rt)) st).

(** ** Further sample inputs *)

(** A guest whose functions return their second argument. *)
Definition echo_guest (f : nat) (args : list jsvalue) (st : thread_state)
    : call_outcome * thread_state :=
  (Returned (array_get args 1), st).

(** The sample runtime after its script has also registered function 4
    for calling references and function 5 for stack traces. *)
Definition serving_runtime : V8ScriptRuntime :=
  register_all [(CallRefRoutine, 4%nat); (StackTraceRoutine, 5%nat)] sample_runtime.

(** A guest whose functions return a view of the two bytes 1, 2. *)
Definition blob_guest (f : nat) (args : list jsvalue) (st : thread_state)
    : call_outcome * thread_state :=
  (Returned (new_Uint8Array [x01; x02]), st).

(** A decoder of frame lists that takes every byte for a frame. *)
Definition byte_frames (blob : bytes) : option (list bytes) :=
  Some (map (fun b => [b]) blob).

(** A decoder of objects that decodes nothing. *)
Definition no_objects (data : bytes) : option jsvalue := None.

(** A native dispatcher whose natives all answer with their own hash. *)
Definition hash_native (hash : Z) (context : list native_arg) : result (list native_result) :=
  Ok [ResInt64 hash].


(** A [node::FreeEnvironment] that runs nothing. *)
Definition quiet_FreeEnvironment (rt : V8ScriptRuntime) (st : thread_state)
    : V8ScriptRuntime * thread_state := (rt, st).

(** The build of the game client, without node, and the one of the
    server, with it. *)
Definition client_build : build :=
  {| V8_NODE := false; IS_FXSERVER := false; V8_12_2 := false; IsSDK := false |}.

Definition server_build : build :=
  {| V8_NODE := true; IS_FXSERVER := true; V8_12_2 := false; IsSDK := false |}.

(** * Properties *)

#[local] Arguments Nat.modulo : simpl never.
#[local] Arguments Nat.div : simpl never.
#[local] Arguments Z.pow : simpl never.

(** ** String arena *)

Lemma arena_wf_new addr : arena_wf (new_V8ScriptRuntime addr).
Proof. split; [apply length_replicate | unfold countof_m_stringValues; simpl; lia]. Qed.

Lemma AssignStringValue_wf v rt : arena_wf rt -> arena_wf (AssignStringValue v rt).2.
Proof.
  intros [Hlen Hcur]. split; simpl.
  - by rewrite length_insert.
  - by apply Nat.mod_upper_bound.
Qed.

Lemma assign_all_wf vs rt : arena_wf rt -> arena_wf (assign_all vs rt).
Proof.
  revert rt. induction vs as [|v vs IH]; intros rt Hwf; [done|].
  apply IH. by apply AssignStringValue_wf.
Qed.

Lemma assign_all_snoc vs v rt :
  assign_all (vs ++ [v]) rt = (AssignStringValue v (assign_all vs rt)).2.
Proof. unfold assign_all. by rewrite foldl_snoc. Qed.

Lemma assign_all_cursor vs rt :
  arena_wf rt ->
  m_curStringValue (assign_all vs rt)
  = ((m_curStringValue rt + length vs) mod countof_m_stringValues)%nat.
Proof.
  revert rt. induction vs as [|v vs IH]; intros rt Hwf.
  - simpl. rewrite Nat.add_0_r, Nat.mod_small; [done | apply Hwf].
  - change (assign_all (v :: vs) rt) with (assign_all vs (AssignStringValue v rt).2).
    rewrite IH by (by apply AssignStringValue_wf). simpl.
    rewrite Nat.Div0.add_mod_idemp_l. f_equal. lia.
Qed.

(** Strings acquired later leave a slot alone as long as the cursor does
    not come round to it. *)
Lemma assign_all_untouched vs rt j :
  arena_wf rt ->
  (forall i, (i < length vs)%nat ->
             ((m_curStringValue rt + i) mod countof_m_stringValues)%nat <> j) ->
  m_stringValues (assign_all vs rt) !! j = m_stringValues rt !! j.
Proof.
  revert rt. induction vs as [|v vs IH]; intros rt Hwf Hne; [done|].
  change (assign_all (v :: vs) rt) with (assign_all vs (AssignStringValue v rt).2).
  rewrite IH.
  - simpl. apply list_lookup_insert_ne.
    specialize (Hne 0%nat ltac:(simpl; lia)).
    rewrite Nat.add_0_r, Nat.mod_small in Hne by apply Hwf. done.
  - by apply AssignStringValue_wf.
  - intros i Hi. simpl. rewrite Nat.Div0.add_mod_idemp_l.
    replace (m_curStringValue rt + 1 + i)%nat with (m_curStringValue rt + S i)%nat by lia.
    apply Hne. simpl. lia.
Qed.

Lemma AssignStringValue_slot v rt :
  arena_wf rt ->
  m_stringValues (AssignStringValue v rt).2 !! m_curStringValue rt = Some (Some (Utf8Value v)).
Proof.
  intros [Hlen Hcur]. simpl. apply list_lookup_insert_eq. by rewrite Hlen.
Qed.

Lemma cursor_away (c k : nat) :
  (c < 50)%nat -> (0 < k < 50)%nat -> ((c + k) mod 50)%nat <> c.
Proof.
  intros Hc Hk Heq.
  pose proof (Nat.div_mod_eq (c + k) 50) as Hdm. rewrite Heq in Hdm.
  assert ((c + k) / 50 = 0 \/ (c + k) / 50 = 1 \/ 2 <= (c + k) / 50)%nat as [H|[H|H]] by lia;
    rewrite ?H in Hdm; nia.
Qed.

(** C9. The string arena is a circular table of exactly 50 slots.  In a
    runtime whose table has its 50 slots and whose cursor is in 0..49 (as
    the constructor leaves them): a call of [AssignStringValue] returns
    the slot at the cursor, stores the new string there, leaves every
    other slot alone and moves the cursor to (cursor + 1) mod 50, keeping
    it in 0..49; and after 50 strings acquired in a row the first one is
    still in its slot, while the 51st takes that slot over. *)
Theorem string_arena_circular (rt : V8ScriptRuntime) (v v0 v50 : jsvalue)
    (vs : list jsvalue) :
  arena_wf rt ->
  length vs = 49%nat ->
  countof_m_stringValues = 50%nat /\
  (let '((data, len), rt') := AssignStringValue v rt in
   data = m_curStringValue rt /\
   len = length (Utf8Value v) /\
   read_string rt' data = Some (Utf8Value v) /\
   (forall j, j <> data -> m_stringValues rt' !! j = m_stringValues rt !! j) /\
   m_curStringValue rt' = ((m_curStringValue rt + 1) mod 50)%nat /\
   arena_wf rt') /\
  (forall values, arena_wf (assign_all values rt)) /\
  read_string (assign_all (v0 :: vs) rt) (m_curStringValue rt) = Some (Utf8Value v0) /\
  m_curStringValue (assign_all (v0 :: vs) rt) = m_curStringValue rt /\
  read_string (assign_all (v0 :: vs ++ [v50]) rt) (m_curStringValue rt)
    = Some (Utf8Value v50).
Proof.
  intros Hwf Hvs. split; [done|]. split; [|split; [|split; [|split]]].
  - destruct (AssignStringValue v rt) as [[data len] rt'] eqn:E.
    pose proof (AssignStringValue_slot v rt Hwf) as Hslot.
    pose proof (AssignStringValue_wf v rt Hwf) as Hwf'.
    rewrite E in Hslot, Hwf'. unfold AssignStringValue in E. injection E as <- <- <-.
    repeat split; try done; try apply Hwf'.
    + unfold read_string. simpl in *. by rewrite Hslot.
    + intros j Hj. simpl. by apply list_lookup_insert_ne.
  - intros values. by apply assign_all_wf.
  - change (assign_all (v0 :: vs) rt) with (assign_all vs (AssignStringValue v0 rt).2).
    unfold read_string. rewrite assign_all_untouched.
    + by rewrite AssignStringValue_slot.
    + by apply AssignStringValue_wf.
    + intros i Hi. simpl. rewrite Nat.Div0.add_mod_idemp_l.
      replace (m_curStringValue rt + 1 + i)%nat with (m_curStringValue rt + (1 + i))%nat by lia.
      apply cursor_away; [apply Hwf | lia].
  - rewrite assign_all_cursor by done. simpl. rewrite Hvs.
    destruct Hwf as [_ Hcur]. unfold countof_m_stringValues in *.
    replace (m_curStringValue rt + 50)%nat with (m_curStringValue rt + 1 * 50)%nat by lia.
    rewrite Nat.Div0.mod_add. by apply Nat.mod_small.
  - change (v0 :: vs ++ [v50]) with ((v0 :: vs) ++ [v50]). rewrite assign_all_snoc.
    assert (m_curStringValue (assign_all (v0 :: vs) rt) = m_curStringValue rt) as Hc.
    { rewrite assign_all_cursor by done. simpl. rewrite Hvs.
      destruct Hwf as [_ Hcur]. unfold countof_m_stringValues in *.
      replace (m_curStringValue rt + 50)%nat with (m_curStringValue rt + 1 * 50)%nat by lia.
      rewrite Nat.Div0.mod_add. by apply Nat.mod_small. }
    unfold read_string. rewrite <- Hc.
    rewrite AssignStringValue_slot; [done|]. by apply assign_all_wf.
Qed.

(** ** Routine slots *)

Lemma routine_assign_eq k v rt : routine k (assign_routine k v rt) = v.
Proof. by destruct k. Qed.

Lemma routine_assign_ne k k' v rt :
  k <> k' -> routine k (assign_routine k' v rt) = routine k rt.
Proof. intros Hne. destruct k, k'; done. Qed.

Lemma register_unset k f rt :
  routine k rt = None -> register k f rt = assign_routine k (Some f) rt.
Proof.
  destruct k; simpl; intros H;
    unfold SetTickRoutine, SetEventRoutine, SetCallRefRoutine, SetDuplicateRefRoutine,
      SetDeleteRefRoutine, SetStackTraceRoutine, SetUnhandledPromiseRejectionRoutine;
    by rewrite H.
Qed.

Lemma register_set k f g rt :
  routine k rt = Some f -> register k g rt = rt.
Proof.
  destruct k; simpl; intros H;
    unfold SetTickRoutine, SetEventRoutine, SetCallRefRoutine, SetDuplicateRefRoutine,
      SetDeleteRefRoutine, SetStackTraceRoutine, SetUnhandledPromiseRejectionRoutine;
    by rewrite H.
Qed.

Lemma register_keeps k k' f g rt :
  routine k rt = Some f -> routine k (register k' g rt) = Some f.
Proof.
  intros H. destruct (decide (k' = k)) as [->|Hne].
  - by rewrite (register_set k f g rt H).
  - destruct (routine k' rt) as [h|] eqn:E.
    + by rewrite (register_set k' h g rt E).
    + rewrite (register_unset k' g rt E), routine_assign_ne; done.
Qed.

Lemma register_all_keeps regs k f rt :
  routine k rt = Some f -> routine k (register_all regs rt) = Some f.
Proof.
  revert rt. induction regs as [|[k' g] regs IH]; intros rt H; [done|].
  apply IH. by apply register_keeps.
Qed.

Lemma register_all_self rt regs : self (register_all regs rt) = self rt.
Proof.
  revert rt. induction regs as [|[k g] regs IH]; intros rt; [done|].
  simpl. rewrite IH.
  destruct k; simpl;
    unfold SetTickRoutine, SetEventRoutine, SetCallRefRoutine, SetDuplicateRefRoutine,
      SetDeleteRefRoutine, SetStackTraceRoutine, SetUnhandledPromiseRejectionRoutine;
    by case_match.
Qed.

(** [Destroy] ends the life of the slots: it empties five of them and
    leaves the stack-trace and unhandled-rejection routines in place. *)
Lemma Destroy_routines_empties rt :
  (forall k, k <> StackTraceRoutine -> k <> UnhandledPromiseRejectionRoutine ->
             routine k (Destroy_routines rt) = None) /\
  routine StackTraceRoutine (Destroy_routines rt) = routine StackTraceRoutine rt /\
  routine UnhandledPromiseRejectionRoutine (Destroy_routines rt)
  = routine UnhandledPromiseRejectionRoutine rt.
Proof.
  split; [|done]. intros k H1 H2. by destruct k.
Qed.

Lemma routine_AssignStringValue k value rt :
  routine k (AssignStringValue value rt).2 = routine k rt.
Proof. by destruct k. Qed.

Lemma run_ops_keeps ops k f rt :
  OpDestroy ∉ ops -> routine k rt = Some f -> routine k (run_ops ops rt) = Some f.
Proof.
  revert rt. induction ops as [|op ops IH]; intros rt Hno H; [done|].
  apply not_elem_of_cons in Hno as [Hop Hno].
  apply (IH _ Hno). destruct op as [k' g|value|]; [| |done].
  - by apply register_keeps.
  - cbn [run_op]. by rewrite routine_AssignStringValue.
Qed.

Lemma run_ops_keeps_undestroyed ops k f rt :
  k = StackTraceRoutine \/ k = UnhandledPromiseRejectionRoutine ->
  routine k rt = Some f -> routine k (run_ops ops rt) = Some f.
Proof.
  intros Hk. revert rt. induction ops as [|op ops IH]; intros rt H; [done|].
  apply IH. destruct op as [k' g|value|].
  - by apply register_keeps.
  - cbn [run_op]. by rewrite routine_AssignStringValue.
  - cbn [run_op]. destruct (Destroy_routines_empties rt) as (_ & Hs & Hu).
    destruct Hk as [-> | ->]; congruence.
Qed.

Lemma exercises_set k f rt : routine k rt = Some f -> exercises k f rt.
Proof.
  intros H guest st.
  destruct k; cbn [routine] in H; cbv zeta; intros;
    unfold Tick, TriggerEvent, CallRef, DuplicateRef, RemoveRef, WalkStack,
      HandlePromiseRejection, V8PushEnvironment, V8PushEnvironment_enter,
      tick_closure, event_closure, callRef_closure, duplicateRef_closure,
      deleteRef_closure, stackTrace_closure, rejection_closure;
    rewrite H; cbn [fst snd];
    match goal with |- context [Call guest f ?args ?s] =>
      destruct (Call guest f args s) as [[v|e] st2] end;
    cbn [fst snd]; try done.
  - by destruct v.
  - by destruct (IsInt32 v).
  - destruct v; try done. by destruct (unpack_frames _).
Qed.

(** C7.  For each of the seven routine kinds the first registration wins
    for as long as the slot stays set.  Once a routine of kind [k] has
    been set to [f] on a runtime where that kind was unset, then after
    any history of registrations (of any kind) and string stores the
    member still holds [f], a further registration of kind [k] changes
    nothing at all in the runtime, and the operation that invokes the
    routine calls the guest callable [f].  For the stack-trace and the
    unhandled-rejection routine this holds across [Destroy] as well.
    [Destroy] empties the other five: after it the next registration of
    such a kind takes the slot. *)
Theorem first_registration_wins (k : routine_kind) (f : nat)
    (ops : list runtime_op) (rt : V8ScriptRuntime) :
  routine k rt = None ->
  let rt' := run_ops ops (register k f rt) in
  routine k (register k f rt) = Some f /\
  (OpDestroy ∉ ops ->
   routine k rt' = Some f /\ (forall g, register k g rt' = rt') /\ exercises k f rt') /\
  (k = StackTraceRoutine \/ k = UnhandledPromiseRejectionRoutine ->
   routine k rt' = Some f /\ (forall g, register k g rt' = rt')) /\
  (k <> StackTraceRoutine -> k <> UnhandledPromiseRejectionRoutine ->
   forall g, routine k (register k g (Destroy_routines rt')) = Some g).
Proof.
  intros Hnone rt'.
  assert (routine k (register k f rt) = Some f) as H1.
  { rewrite register_unset by done. apply routine_assign_eq. }
  split; [done|]. split; [|split].
  - intros Hno.
    assert (routine k rt' = Some f) as H2 by (by apply run_ops_keeps).
    split; [done|]. split.
    + intros g. by apply (register_set k f).
    + by apply exercises_set.
  - intros Hk.
    assert (routine k rt' = Some f) as H2 by (by apply run_ops_keeps_undestroyed).
    split; [done|]. intros g. by apply (register_set k f).
  - intros Hs Hu g.
    destruct (Destroy_routines_empties rt') as (Hempty & _).
    rewrite register_unset by (by apply Hempty). apply routine_assign_eq.
Qed.

(** C7 (counterexample).  The script of a fresh runtime registers function
    1 for ticks, the host destroys the runtime, and function 2 is
    registered for ticks: the slot holds function 2, so the later attempt
    was no silent no-op. *)
Lemma registration_after_Destroy :
  routine TickRoutine (register TickRoutine 1%nat (new_V8ScriptRuntime 7)) = Some 1%nat /\
  routine TickRoutine
    (run_ops [OpDestroy; OpRegister TickRoutine 2%nat]
       (register TickRoutine 1%nat (new_V8ScriptRuntime 7))) = Some 2%nat.
Proof. split; reflexivity. Qed.

(** ** Dispatch with an unset routine *)

(** C10. A dispatch operation whose routine is unset returns success and
    leaves the thread as it was: no environment scope is entered, no guest
    function is called, no event of any kind is added.  [CallRef] then
    leaves [*retval] null and [DuplicateRef] leaves [*outRefIdx] at -1,
    which is also what [DuplicateRef] reports, with success, when the
    routine is set and the guest function throws. *)
Theorem unset_routine_dispatch
    (guest : nat -> list jsvalue -> thread_state -> call_outcome * thread_state)
    (unpack_frames : bytes -> option (list bytes))
    (rt : V8ScriptRuntime) (st : thread_state) :
  (m_tickRoutine rt = None ->
   forall time, Tick guest rt time st = (FX_S_OK, st)) /\
  (m_eventRoutine rt = None ->
   forall name payload source, TriggerEvent guest rt name payload source st = (FX_S_OK, st)) /\
  (m_callRefRoutine rt = None ->
   forall refIdx args, CallRef guest rt refIdx args st = (FX_S_OK, None, st)) /\
  (m_duplicateRefRoutine rt = None ->
   forall refIdx, DuplicateRef guest rt refIdx st = (FX_S_OK, -1, st)) /\
  (m_deleteRefRoutine rt = None ->
   forall refIdx, RemoveRef guest rt refIdx st = (FX_S_OK, st)) /\
  (m_stackTraceRoutine rt = None ->
   forall start end_, WalkStack guest unpack_frames rt start end_ st = (Some FX_S_OK, st)) /\
  (forall f refIdx e st',
     m_duplicateRefRoutine rt = Some f ->
     Call guest f [JSNumber (Z_to_double refIdx)] (V8PushEnvironment_enter rt st).2
       = (Threw e, st') ->
     (DuplicateRef guest rt refIdx st).1 = (FX_S_OK, -1)).
Proof.
  unfold Tick, TriggerEvent, CallRef, DuplicateRef, RemoveRef, WalkStack.
  repeat split; try (intros ->; done).
  intros f refIdx e st' -> Hcall.
  unfold V8PushEnvironment, duplicateRef_closure.
  destruct (V8PushEnvironment_enter rt st) as [last st1]. simpl in Hcall.
  by rewrite Hcall.
Qed.

(** ** Deferred release of references *)

Lemma drain_loop_lookup queue (h : gmap nat RefAndPersistent) p :
  drain_loop queue h !! p = if decide (p ∈ queue) then None else h !! p.
Proof.
  revert h. induction queue as [|q queue IH]; intros h; cbn [drain_loop].
  - rewrite decide_False; [done | apply not_elem_of_nil].
  - rewrite IH. destruct (decide (p = q)) as [->|Hne].
    + rewrite lookup_delete_eq.
      rewrite (decide_True (P := q ∈ q :: queue)) by (apply elem_of_cons; by left).
      by destruct (decide (q ∈ queue)).
    + rewrite lookup_delete_ne by done.
      destruct (decide (p ∈ queue)) as [Hin|Hin].
      * rewrite decide_True; [done | apply elem_of_cons; by right].
      * rewrite decide_False; [done|]. by intros [?|?]%elem_of_cons.
Qed.

(** C2. The finalization callback of a function reference releases
    nothing: the entry stays allocated with its identifier, its handle is
    reset, every other entry and the function table are as before, and the
    entry is at the back of the deferred-release queue.  The entry is
    freed by the per-tick drain, which frees every queued entry, leaves
    the others alone and empties the queue. *)
Theorem weak_callback_defers_release (reg : registry) (data : nat) (e : RefAndPersistent) :
  heap reg !! data = Some e ->
  let reg' := FnRefWeakCallback data reg in
  dom (heap reg') = dom (heap reg) /\
  heap reg' !! data
    = Some {| ref := ref e; handle := None; runtime := runtime e; weak := weak e |} /\
  (forall p, p <> data -> heap reg' !! p = heap reg !! p) /\
  functions reg' = functions reg /\
  g_cleanUpFuncRefs reg' = g_cleanUpFuncRefs reg ++ [data] /\
  heap (OnTick_drain reg') !! data = None /\
  (forall p, p ∈ g_cleanUpFuncRefs reg' -> heap (OnTick_drain reg') !! p = None) /\
  (forall p, p ∉ g_cleanUpFuncRefs reg' -> heap (OnTick_drain reg') !! p = heap reg' !! p) /\
  g_cleanUpFuncRefs (OnTick_drain reg') = [].
Proof.
  intros He reg'. subst reg'. unfold FnRefWeakCallback, OnTick_drain. simpl.
  repeat split.
  - apply set_eq. intros p. rewrite !elem_of_dom.
    destruct (decide (p = data)) as [->|Hne].
    + rewrite lookup_alter_eq, He. simpl. split; eauto.
    + by rewrite lookup_alter_ne.
  - by rewrite lookup_alter_eq, He.
  - intros p Hne. by rewrite lookup_alter_ne.
  - rewrite drain_loop_lookup. rewrite decide_True; [done|]. apply elem_of_app. right. apply elem_of_cons. by left.
  - intros p Hp. rewrite drain_loop_lookup. by rewrite decide_True.
  - intros p Hp. rewrite drain_loop_lookup. by rewrite decide_False.
Qed.

(** ** Results of a native call *)

Lemma array_set_end elems v : array_set elems (length elems) v = elems ++ [v].
Proof.
  unfold array_set. rewrite decide_False by lia.
  by rewrite Nat.sub_diag.
Qed.

Lemma collect_result_many vals elems :
  (2 <= length elems)%nat ->
  foldl collect_result (JSArray elems, length elems) vals
  = (JSArray (elems ++ vals), length (elems ++ vals)).
Proof.
  revert elems. induction vals as [|val vals IH]; intros elems Hlen.
  - by rewrite app_nil_r.
  - cbn [foldl]. unfold collect_result at 2.
    destruct (length elems) as [|[|n]] eqn:E; [lia | lia |].
    cbn [Nat.eqb]. rewrite <- E, array_set_end.
    replace (S (length elems)) with (length (elems ++ [val])) by (rewrite length_app; simpl; lia).
    rewrite IH by (rewrite length_app; simpl; lia).
    by rewrite <- app_assoc.
Qed.

Lemma collect_result_values vals :
  fst (foldl collect_result (JSUndefined, 0%nat) vals)
  = match vals with
    | [] => JSUndefined
    | [a] => a
    | _ => JSArray vals
    end.
Proof.
  destruct vals as [|a [|b vals]]; [done | done |].
  cbn [foldl]. change (collect_result (collect_result (JSUndefined, 0%nat) a) b)
    with (JSArray [a; b], length [a; b]).
  by rewrite collect_result_many.
Qed.

Lemma collect_results_map decode_object results :
  collect_results decode_object results
  = fst (foldl collect_result (JSUndefined, 0%nat) (map (ProcessResult decode_object) results)).
Proof.
  unfold collect_results. generalize (JSUndefined, 0%nat).
  induction results as [|r results IH]; intros st; [done|]. apply IH.
Qed.

(** C5. The return value of a native invocation: [undefined] when the
    call emits no result; the converted result itself, not wrapped, when
    it emits exactly one; when it emits two or more, an array of all the
    converted results in emission order.  On the way, the lambda holds the
    first result bare and, when the second arrives, puts the first into
    slot 0 of a new array and the second after it.  [V8_InvokeNative]
    returns that value whenever pushing the arguments and the call itself
    raise no error. *)
Theorem multi_result_convention
    (decode_object : bytes -> option jsvalue)
    (native_Invoke : Z -> list native_arg -> result (list native_result))
    (results : list native_result) :
  let val := ProcessResult decode_object in
  collect_results decode_object results
  = match results with
    | [] => JSUndefined
    | [a] => val a
    | _ => JSArray (map val results)
    end /\
  (forall a b, collect_result (JSUndefined, 0%nat) a = (a, 1%nat) /\
               collect_result (a, 1%nat) b = (JSArray [a; b], 2%nat)) /\
  (forall rt args hash baseArgs,
     V8_InvokeNative decode_object native_Invoke rt args hash baseArgs
     = match push_arguments (drop baseArgs args) (rt, []) with
       | Err e => Err e
       | Ok (_, (rt', context)) =>
           match native_Invoke hash context with
           | Err e => Err e
           | Ok results => Ok (match results with
                               | [] => JSUndefined
                               | [a] => val a
                               | _ => JSArray (map val results)
                               end, rt')
           end
       end).
Proof.
  intros val.
  assert (forall rs, collect_results decode_object rs
                     = match rs with
                       | [] => JSUndefined
                       | [a] => val a
                       | _ => JSArray (map val rs)
                       end) as Hc.
  { intros rs. rewrite collect_results_map, collect_result_values.
    by destruct rs as [|a [|b rs]]. }
  split; [apply Hc|]. split; [done|].
  intros rt args hash baseArgs. unfold V8_InvokeNative.
  destruct (push_arguments (drop baseArgs args) (rt, [])) as [[[] [rt' context]]|e]; [|done].
  destruct (native_Invoke hash context) as [rs|e]; [|done].
  by rewrite Hc.
Qed.

(** ** Vector arrays *)

Lemma fp_eq_NAN x : fp_eq x NAN = false.
Proof. by destruct x. Qed.

(** C3. What [PushArgument] does with an array.  A length outside 2..4
    raises "arrays should be vectors (wrong number of values)".  A length
    of 2, 3 or 4 always succeeds and pushes one float per element, in
    element order: the number narrowed to a float for a numeric element,
    and a NaN for any other element.  The error "invalid vector array
    value" is never raised, since the test [x == NAN] that guards it is
    false for every [x], a NaN included: so the array [[1, "a"]] is
    accepted and pushes 1 and a NaN. *)
Theorem vector_array_marshaling (array : list jsvalue) (rt : V8ScriptRuntime)
    (args : list native_arg) :
  PushArgument (JSArray array) (rt, args)
  = (if (2 <=? length array)%nat && (length array <=? 4)%nat
     then Ok (tt, (rt, args ++ map (fun i => ArgFloat (getNumber array i))
                                   (seq 0 (length array))))
     else Err (ScriptError "arrays should be vectors (wrong number of values)")) /\
  (forall i d, array !! i = Some (JSNumber d) -> getNumber array i = static_cast_float d) /\
  (forall i v, array !! i = Some v -> IsNumber v = false -> getNumber array i = NAN) /\
  PushArgument (JSArray [JSNumber (Z_to_double 1); JSString [x61]]) (rt, [])
  = Ok (tt, (rt, [ArgFloat (S754_finite false 8388608 (-23)); ArgFloat S754_nan])).
Proof.
  split; [|split; [|split]].
  - destruct array as [|a [|b [|c [|d [|e array]]]]];
      cbn [length seq map Nat.leb andb]; try done;
      unfold PushArgument; cbn [length Nat.ltb Nat.leb orb when_];
      unfold mbind, marshal_bind, mret, marshal_ret, throw, Push, when_;
      rewrite ?fp_eq_NAN; cbv -[getNumber app]; rewrite <- ?app_assoc; done.
  - intros i d H. unfold getNumber, array_get. by rewrite H.
  - intros i v H Hv. unfold getNumber, array_get. rewrite H. by destruct v.
  - reflexivity.
Qed.

(** ** Microtask checkpoints *)

Lemma events_emit e st : events (emit e st) = events st ++ [e].
Proof. done. Qed.

(** C8 (what holds).  Leaving a [V8PushEnvironment] runs the microtasks
    of the runtime being left at every exit, whether or not the thread was
    already inside a scope of that runtime: with a task queue and outside
    garbage collection the exit performs exactly one checkpoint, then
    restores the previous current runtime; inside a garbage-collection
    pass (or without a task queue) it performs none.  Nesting is detected
    only by the node scope handler, which pushes a no-op entry when the
    runtime is already current; leaving that entry, or a no-runtime entry,
    performs no checkpoint. *)
Theorem checkpoint_on_every_scope_exit {A : Type} (rt : V8ScriptRuntime)
    (body : thread_state -> A * thread_state) (st : thread_state) :
  let entered := (V8PushEnvironment_enter rt st).2 in
  let inner := body entered in
  let out := V8PushEnvironment rt body st in
  events entered = events st ++ [EvEnter (self rt)] /\
  g_currentV8Runtime entered = Some (self rt) /\
  out.1 = inner.1 /\
  events out.2
  = events inner.2
    ++ (if m_taskQueue rt && (g_isV8InGc inner.2 =? 0)
        then [EvPerformCheckpoint (self rt)] else [])
    ++ [EvLeave (self rt)] /\
  g_currentV8Runtime out.2 = g_currentV8Runtime st /\
  (forall IsLocked TryPush,
     g_currentV8Runtime st = Some (self rt) ->
     node_scope_enter (Some rt) IsLocked TryPush st
     = set_envStack (V8NoopPushEnvironment :: g_envStack st) st) /\
  (forall top stack,
     g_envStack st = top :: stack ->
     top = V8NoopPushEnvironment \/ top = V8LiteNoRuntimePushEnvironment ->
     node_scope_leave st = set_envStack stack st).
Proof.
  intros entered inner out. subst entered inner out.
  unfold V8PushEnvironment, V8PushEnvironment_enter. cbn [snd fst].
  destruct (body _) as [a st1] eqn:E. cbn [snd fst].
  repeat split.
  - unfold V8PushEnvironment_leave, RunMicrotasks.
    destruct (m_taskQueue rt); cbn [andb]; [destruct (g_isV8InGc st1 =? 0)|];
      cbn [events emit set_current]; by rewrite <- ?app_assoc.
  - intros IsLocked TryPush Hcur. unfold node_scope_enter. by rewrite decide_True.
  - intros top stack Hstack Htop. unfold node_scope_leave. rewrite Hstack.
    by destruct Htop as [-> | ->].
Qed.

(** C8 (counterexample).  A tick whose guest function makes the host
    deliver an event to the same runtime: the inner scope is entered
    while the outer one is open, and its exit performs a checkpoint of its
    own, before the one of the outermost exit. *)
Lemma nested_scope_exit_runs_checkpoint :
  scope_events
    (events (Tick reentrant_guest sample_runtime (Z_to_double 0) idle_thread).2)
  = [EvEnter 7; EvEnter 7; EvPerformCheckpoint 7; EvLeave 7;
     EvPerformCheckpoint 7; EvLeave 7].
Proof. reflexivity. Qed.

(** ** Integers of a number *)


Lemma cond_Zopp_abs s a : 0 <= a -> Z.abs (cond_Zopp s a) = a.
Proof. destruct s; simpl; lia. Qed.

(** The truncation of a number that is an integer is that integer. *)
Lemma trunc_integer v n : has_integer_value v n -> trunc v = Some n.
Proof.
  destruct v as [s|s| |s m e]; simpl; try done.
  - by intros ->.
  - destruct (Z.leb_spec 0 e) as [He|He]; intros Hn; f_equal.
    + rewrite Z.shiftl_mul_pow2 by done. by subst.
    + rewrite Z.shiftl_div_pow2 by lia. 
      assert (0 < 2 ^ (- e)) by (apply Z.pow_pos_nonneg; lia).
      destruct s; simpl in *.
      * assert (Z.pos m = (- n) * 2 ^ (- e)) as -> by lia.
        rewrite Z.div_mul by lia. lia.
      * rewrite <- Hn. by rewrite Z.div_mul by lia.
Qed.

Lemma is_integral_integer v n : has_integer_value v n -> is_integral v = true.
Proof.
  destruct v as [s|s| |s m e]; simpl; try done.
  destruct (Z.leb_spec 0 e) as [He|He]; [done|]. intros Hn. simpl.
  apply Z.eqb_eq. 
  assert (0 < 2 ^ (- e)) by (apply Z.pow_pos_nonneg; lia).
  destruct s; simpl in *.
  - assert (Z.pos m = (- n) * 2 ^ (- e)) as -> by lia. by apply Z.mod_mul; lia.
  - rewrite <- Hn. apply Z.mod_mul; lia.
Qed.

Lemma integer_is_integral v :
  is_integral v = true -> exists n, trunc v = Some n /\ has_integer_value v n.
Proof.
  destruct v as [s|s| |s m e]; simpl; try done.
  - by exists 0.
  - intros H. eexists; split; [done|].
    destruct (Z.leb_spec 0 e) as [He|He].
    + by rewrite Z.shiftl_mul_pow2.
    + simpl in H. apply Z.eqb_eq in H.
      rewrite Z.shiftl_div_pow2 by lia.
      assert (0 < 2 ^ (- e)) by (apply Z.pow_pos_nonneg; lia).
      apply Z.div_exact in H; [|lia].
      destruct s; simpl; [|lia].
      rewrite Z.mul_opp_l. f_equal. lia.
Qed.

Lemma to_int32_in_range v n :
  trunc v = Some n -> in_int32 n = true -> to_int32 v = n.
Proof.
  unfold to_int32, in_int32, INT32_MIN, INT32_MAX. intros -> H.
  apply andb_prop in H as [H1 H2]. apply Z.leb_le in H1, H2.
  rewrite Z.mod_small; lia.
Qed.

(** ** Duplicating a reference *)

(** C6 (what holds).  With the duplicate-ref routine set, [DuplicateRef]
    succeeds and reports -1 when the guest function throws, when it
    returns a value that is not a number, a number that is not an integer,
    an integer outside the signed 32-bit range, or the negative zero; it
    reports [n] when the function returns the integer [n] of the signed
    32-bit range. *)
Theorem DuplicateRef_result
    (guest : nat -> list jsvalue -> thread_state -> call_outcome * thread_state)
    (rt : V8ScriptRuntime) (f : nat) (refIdx : Z) (st : thread_state) :
  m_duplicateRefRoutine rt = Some f ->
  let outcome := (Call guest f [JSNumber (Z_to_double refIdx)]
                    (V8PushEnvironment_enter rt st).2).1 in
  let r := (DuplicateRef guest rt refIdx st).1 in
  r.1 = FX_S_OK /\
  (forall e, outcome = Threw e -> r.2 = -1) /\
  (forall v, outcome = Returned v -> IsNumber v = false -> r.2 = -1) /\
  (forall d, outcome = Returned (JSNumber d) ->
             (forall n, ~ has_integer_value d n) -> r.2 = -1) /\
  (forall d n, outcome = Returned (JSNumber d) -> has_integer_value d n ->
               in_int32 n = false -> r.2 = -1) /\
  (forall d, outcome = Returned (JSNumber d) -> is_minus_zero d = true -> r.2 = -1) /\
  (forall d n, outcome = Returned (JSNumber d) -> has_integer_value d n ->
               is_minus_zero d = false -> in_int32 n = true -> r.2 = n).
Proof.
  intros Hset outcome r. subst outcome r.
  unfold DuplicateRef. rewrite Hset.
  unfold V8PushEnvironment, duplicateRef_closure.
  destruct (V8PushEnvironment_enter rt st) as [last st1]. cbn [snd].
  destruct (Call guest f [JSNumber (Z_to_double refIdx)] st1) as [o st2]. cbn [fst snd].
  split; [by destruct o; [case_match|] |].
  repeat split.
  - by intros e ->.
  - intros v -> Hv. destruct v; try done.
  - intros d -> Hd. unfold IsInt32.
    destruct (is_integral d) eqn:E; [|done].
    apply integer_is_integral in E as (n & _ & Hn). by destruct (Hd n).
  - intros d n -> Hn Hr. unfold IsInt32.
    rewrite (trunc_integer d n Hn), Hr. by rewrite andb_false_r.
  - intros d -> Hz. unfold IsInt32. rewrite Hz. simpl. by rewrite andb_false_r.
  - intros d n -> Hn Hz Hr. unfold IsInt32.
    rewrite (is_integral_integer d n Hn), Hz, (trunc_integer d n Hn), Hr.
    simpl. apply to_int32_in_range; [by apply trunc_integer | done].
Qed.

(** C6 (counterexample).  The guest function returns the integer
    2147483648; [DuplicateRef] reports -1. *)
Lemma DuplicateRef_large_integer :
  has_integer_value (Z_to_double 2147483648) 2147483648 /\
  (DuplicateRef (constant_guest (Z_to_double 2147483648)) sample_runtime 5 idle_thread).1
  = (FX_S_OK, -1).
Proof. split; reflexivity. Qed.

(** ** Invoking a reference *)

Lemma c_str_no_NUL (s : bytes) : x00 ∉ s -> c_str s = s.
Proof.
  induction s as [|b s IH]; [done|]. intros Hs. simpl.
  destruct (Byte.eqb b x00) eqn:E.
  - apply Byte.byte_dec_bl in E. set_solver.
  - f_equal. apply IH. set_solver.
Qed.

Lemma refString_carries arg0 id : carries arg0 id -> x00 ∉ id -> refString arg0 = id.
Proof.
  destruct arg0 as [| | | | | utf8 | | | [|] store offset len | | |]; simpl; try done.
  intros -> Hid. by apply c_str_no_NUL.
Qed.

(** C1 (what holds).  For an identifier [id] without a zero byte, carried
    to [V8_MakeFunctionReference] as a string or as a [Uint8Array]: the
    script gets the new function; calling it with a view over the payload
    [P] makes exactly one call of the host's call-ref interface, with
    [(id, P)], and returns a [Uint8Array] over exactly the bytes the host
    returned (over no bytes when it returned no buffer); when the host
    reports failure, the call throws an error whose message is the host's
    last-error text ("Unknown" when the host gives none). *)
Theorem reference_invocation
    (host : bytes -> bytes -> host_reply)
    (rt : V8ScriptRuntime) (arg0 : jsvalue) (id : bytes) (outFn : nat) (reg : registry)
    (kind : view_kind) (store : bytes) (offset len : nat) (st : thread_state) :
  carries arg0 id ->
  x00 ∉ id ->
  let made := V8_MakeFunctionReference rt arg0 (Some outFn) reg in
  let P := view_contents store offset len in
  let call := invoke_reference host made.2 outFn (JSArrayBufferView kind store offset len) st in
  made.1 = JSFunction outFn /\
  events call.2 = events st ++ [EvHostInvoke id P] /\
  call.1
  = Some match host id P with
         | HostOk (Some retval) => ReturnValue (new_Uint8Array retval)
         | HostOk None => ReturnValue (new_Uint8Array [])
         | HostFailed (Some text) => ThrowException (c_str text)
         | HostFailed None => ThrowException (String.list_byte_of_string "Unknown")
         end.
Proof.
  intros Hid Hnul made P call. subst made P call.
  unfold V8_MakeFunctionReference, invoke_reference. cbn [fst snd functions heap].
  rewrite lookup_insert_eq, lookup_insert_eq.
  unfold V8_InvokeFunctionReference. cbn [ref].
  rewrite (refString_carries arg0 id Hid Hnul), (c_str_no_NUL id Hnul).
  split; [done|].
  destruct (host id (view_contents store offset len)) as [[retval|]|[text|]]; done.
Qed.

(** C1 (counterexample).  The identifier is the three bytes 'a', NUL,
    'b', given as a [Uint8Array]; the payload is the byte 1.  The host's
    call-ref interface is called with the identifier 'a'. *)
Lemma reference_identifier_cut_at_NUL :
  events
    (invoke_reference echo_host
       (V8_MakeFunctionReference sample_runtime (new_Uint8Array [x61; x00; x62])
          (Some 1%nat) empty_registry).2
       1%nat (new_Uint8Array [x01]) idle_thread).2
  = [EvHostInvoke [x61] [x01]].
Proof. reflexivity. Qed.

(** ** Rounding an integer to a double *)


Lemma digits2_pos_size p : digits2_pos p = Pos.size p.
Proof. induction p; simpl; congruence. Qed.

Lemma digits2_pos_log2 p : Z.pos (digits2_pos p) = Z.log2 (Z.pos p) + 1.
Proof.
  rewrite digits2_pos_size. destruct p; simpl; lia.
Qed.

Lemma digits2_pos_bounds p :
  2 ^ (Z.pos (digits2_pos p) - 1) <= Z.pos p < 2 ^ Z.pos (digits2_pos p).
Proof.
  rewrite digits2_pos_log2.
  pose proof (Z.log2_spec (Z.pos p) ltac:(lia)) as H.
  replace (Z.log2 (Z.pos p) + 1 - 1) with (Z.log2 (Z.pos p)) by lia.
  replace (Z.log2 (Z.pos p) + 1) with (Z.succ (Z.log2 (Z.pos p))) by lia. done.
Qed.

Lemma digits2_pos_shift p q k :
  0 <= k -> Z.pos q = Z.pos p * 2 ^ k ->
  Z.pos (digits2_pos q) = Z.pos (digits2_pos p) + k.
Proof.
  intros Hk Hq. rewrite !digits2_pos_log2, Hq, Z.log2_mul_pow2 by lia. lia.
Qed.

Lemma iter_xO_pow p k : Z.pos (Pos.iter xO p k) = Z.pos p * 2 ^ Z.pos k.
Proof.
  induction k as [|k IH] using Pos.peano_ind.
  - simpl. lia.
  - rewrite Pos.iter_succ, Pos2Z.inj_xO, IH, Pos2Z.inj_succ, Z.pow_succ_r by lia. lia.
Qed.

Lemma iter_pos_iter {A : Type} (f : A -> A) (n : positive) (x : A) :
  SpecFloat.iter_pos f n x = Pos.iter f x n.
Proof.
  revert x. induction n as [n IH|n IH|]; intros x; simpl; [|by rewrite !IH|done].
  by rewrite !IH, !Pos.iter_swap.
Qed.

(** Shifting right what was shifted left loses nothing. *)
Lemma iter_shr_1_exact m k :
  SpecFloat.iter_pos shr_1 k {| shr_m := Z.pos (Pos.iter xO m k); shr_r := false; shr_s := false |}
  = {| shr_m := Z.pos m; shr_r := false; shr_s := false |}.
Proof.
  rewrite iter_pos_iter. induction k as [|k IH] using Pos.peano_ind; [done|].
  rewrite (Pos.iter_succ_r k _ shr_1), (Pos.iter_succ k _ xO). simpl. apply IH.
Qed.

Lemma SFeqb_finite s1 m1 e1 s2 m2 e2 :
  SFeqb (S754_finite s1 m1 e1) (S754_finite s2 m2 e2) = true
  <-> s1 = s2 /\ m1 = m2 /\ e1 = e2.
Proof.
  unfold SFeqb, SFcompare.
  change (Pos.compare_cont Eq m1 m2) with (Pos.compare m1 m2).
  split.
  - destruct s1, s2; try done;
      destruct (Z.compare e1 e2) eqn:Ee; try done;
      destruct (Pos.compare m1 m2) eqn:Em; try done;
      apply Z.compare_eq in Ee; apply Pos.compare_eq in Em; by subst.
  - intros (-> & -> & ->). rewrite Z.compare_refl, Pos.compare_refl.
    by destruct s2.
Qed.

Lemma bounded_spec m e :
  bounded prec64 emax64 m e = true
  <-> Z.max (Z.pos (digits2_pos m) + e - 53) (-1074) = e /\ e <= 971.
Proof.
  unfold bounded, canonical_mantissa, fexp, emin, prec64, emax64.
  rewrite andb_true_iff, Z.eqb_eq, Z.leb_le. lia.
Qed.

Lemma shr_nonpos mrs e n : n <= 0 -> shr mrs e n = (mrs, e).
Proof. destruct n; [done | lia | done]. Qed.

Lemma shr_fexp_canonical m e :
  bounded prec64 emax64 m e = true ->
  shr_fexp prec64 emax64 (Z.pos m) e loc_Exact
  = ({| shr_m := Z.pos m; shr_r := false; shr_s := false |}, e).
Proof.
  intros [Hc He]%bounded_spec.
  unfold shr_fexp. cbn [Zdigits2 shr_record_of_loc].
  apply shr_nonpos. unfold fexp, emin, prec64, emax64. lia.
Qed.

(** Rounding a mantissa that is already canonical changes nothing. *)
Lemma binary_round_aux_canonical s m e :
  bounded prec64 emax64 m e = true ->
  binary_round_aux prec64 emax64 s (Z.pos m) e loc_Exact = S754_finite s m e.
Proof.
  intros Hb. pose proof Hb as [Hc He]%bounded_spec.
  unfold binary_round_aux. rewrite shr_fexp_canonical by done.
  cbn [shr_m loc_of_shr_record round_nearest_even].
  rewrite shr_fexp_canonical by done. cbn [shr_m].
  unfold prec64, emax64 in *.
  destruct (Z.leb_spec e (1024 - 53)); [done | lia].
Qed.

(** An integer below [2^53] in magnitude is a double: the mantissa is
    shifted up to its canonical place. *)
Lemma binary_round_small s p m e :
  bounded prec64 emax64 m e = true -> e <= 0 ->
  Z.pos m = Z.pos p * 2 ^ (- e) ->
  binary_round prec64 emax64 s p 0 = S754_finite s m e.
Proof.
  intros Hb He Hm. pose proof Hb as [Hc _]%bounded_spec.
  pose proof (digits2_pos_shift p m (- e) ltac:(lia) Hm) as Hd.
  unfold binary_round.
  assert (fexp prec64 emax64 (Z.pos (digits2_pos p) + 0) = e) as ->.
  { unfold fexp, emin, prec64, emax64. lia. }
  unfold shl_align. rewrite Z.sub_0_r. destruct e as [|e|e]; [| lia |].
  - change (- 0) with 0 in Hm. rewrite Z.pow_0_r in Hm.
    assert (m = p) as -> by lia. by apply binary_round_aux_canonical.
  - assert (Pos.iter xO p e = m) as ->.
    { apply Pos2Z.inj. rewrite iter_xO_pow. change (- Z.neg e) with (Z.pos e) in Hm. lia. }
    by apply binary_round_aux_canonical.
Qed.

(** An integer of larger magnitude that fits 53 bits after its trailing
    zeros is a double as well. *)
Lemma binary_round_big s p m e :
  bounded prec64 emax64 m e = true -> 0 < e ->
  Z.pos p = Z.pos m * 2 ^ e ->
  binary_round prec64 emax64 s p 0 = S754_finite s m e.
Proof.
  intros Hb He Hp. pose proof Hb as [Hc He']%bounded_spec.
  pose proof (digits2_pos_shift m p e ltac:(lia) Hp) as Hd.
  assert (fexp prec64 emax64 (Z.pos (digits2_pos p) + 0) = e) as Hf.
  { unfold fexp, emin, prec64, emax64. lia. }
  unfold binary_round. rewrite Hf.
  unfold shl_align. rewrite Z.sub_0_r. destruct e as [|e|e]; [lia | | lia].
  unfold binary_round_aux, shr_fexp at 1. cbn [Zdigits2 shr_record_of_loc].
  rewrite Hf, Z.sub_0_r. cbn [shr].
  assert (p = Pos.iter xO m e) as ->.
  { apply Pos2Z.inj. rewrite iter_xO_pow. lia. }
  rewrite iter_shr_1_exact. cbn [shr_m loc_of_shr_record round_nearest_even].
  rewrite Z.add_0_l, shr_fexp_canonical by done. cbn [shr_m].
  unfold prec64, emax64 in *.
  destruct (Z.leb_spec (Z.pos e) (1024 - 53)); [done | lia].
Qed.

Lemma mantissa_lt_2p53 m e :
  bounded prec64 emax64 m e = true -> Z.pos m < 2 ^ 53.
Proof.
  intros [Hc _]%bounded_spec.
  pose proof (digits2_pos_bounds m) as [_ Hm].
  eapply Z.lt_le_trans; [apply Hm|]. apply Z.pow_le_mono_r; lia.
Qed.

(** Converting the integer that a double is gives that double back. *)
Lemma Z_to_double_integer s m e n :
  bounded prec64 emax64 m e = true ->
  has_integer_value (S754_finite s m e) n ->
  Z_to_double n = S754_finite s m e.
Proof.
  intros Hb Hn. simpl in Hn. unfold Z_to_double, binary_normalize.
  destruct (Z.leb_spec 0 e) as [He|He].
  - assert (0 < 2 ^ e) by (apply Z.pow_pos_nonneg; lia).
    destruct s; simpl in Hn; (destruct n as [|p|p]; [nia | try nia | try nia]).
    + destruct (decide (e = 0)) as [->|].
      * apply binary_round_small; [done | lia |]. change (- 0) with 0. lia.
      * apply binary_round_big; [done | lia | lia].
    + destruct (decide (e = 0)) as [->|].
      * apply binary_round_small; [done | lia |]. change (- 0) with 0. lia.
      * apply binary_round_big; [done | lia | lia].
  - assert (0 < 2 ^ (- e)) by (apply Z.pow_pos_nonneg; lia).
    destruct s; simpl in Hn; (destruct n as [|p|p]; [nia | try nia | try nia]).
    + apply binary_round_small; [done | lia | lia].
    + apply binary_round_small; [done | lia | lia].
Qed.

(** A nonzero integer below [2^53] in magnitude converts to the double
    whose mantissa is the integer shifted up to 53 bits. *)
Lemma binary_round_below_2p53 s p :
  Z.pos p < 2 ^ 53 ->
  exists m e, e <= 0 /\ Z.pos m = Z.pos p * 2 ^ (- e) /\
              binary_round prec64 emax64 s p 0 = S754_finite s m e.
Proof.
  intros Hp. pose proof (digits2_pos_bounds p) as [Hlo Hhi].
  set (d := Z.pos (digits2_pos p)) in *.
  assert (d <= 53) as Hd.
  { destruct (Z.le_gt_cases d 53) as [|Hgt]; [done|].
    assert (2 ^ 53 <= 2 ^ (d - 1)) by (apply Z.pow_le_mono_r; lia). lia. }
  assert (0 < 2 ^ (53 - d)) as Hpow by (apply Z.pow_pos_nonneg; lia).
  exists (Z.to_pos (Z.pos p * 2 ^ (53 - d))), (d - 53).
  assert (Z.pos (Z.to_pos (Z.pos p * 2 ^ (53 - d))) = Z.pos p * 2 ^ (- (d - 53))) as Hm.
  { rewrite Z2Pos.id by lia. f_equal. f_equal. lia. }
  split; [lia|]. split; [done|].
  apply binary_round_small; [|lia|done].
  apply bounded_spec.
  rewrite (digits2_pos_shift p _ (- (d - 53)) ltac:(lia) Hm).
  fold d. lia.
Qed.

(** The number branch, when the double is an integer of the 64-bit
    range. *)
Lemma number_branch_integer v n :
  valid_double v -> has_integer_value v n -> in_int64 n = true ->
  static_cast_int64 v = n /\ fp_eq (Z_to_double n) v = true.
Proof.
  intros Hv Hn Hr. split.
  - unfold static_cast_int64. by rewrite (trunc_integer v n Hn), Hr.
  - destruct v as [s|s| |s m e]; try done.
    + simpl in Hn. subst n. by destruct s.
    + rewrite (Z_to_double_integer s m e n Hv Hn). by apply SFeqb_finite.
Qed.

(** The number branch, when it is not. *)
Lemma number_branch_other v :
  valid_double v -> (forall n, has_integer_value v n -> in_int64 n = false) ->
  fp_eq (Z_to_double (static_cast_int64 v)) v = false.
Proof.
  intros Hv Hnone. destruct v as [s|s| |s m e].
  - by specialize (Hnone 0 eq_refl).
  - by destruct s.
  - done.
  - destruct (fp_eq _ _) eqn:Heq; [exfalso | done].
    unfold static_cast_int64 in Heq. cbn [trunc] in Heq.
    destruct (Z.leb_spec 0 e) as [He|He].
    + rewrite Z.shiftl_mul_pow2 in Heq by done.
      assert (has_integer_value (S754_finite s m e) (cond_Zopp s (Z.pos m * 2 ^ e))) as Hi.
      { simpl. by destruct (Z.leb_spec 0 e); [|lia]. }
      pose proof (Hnone _ Hi) as Hout. rewrite Hout in Heq.
      change (Z_to_double INT64_MIN) with (S754_finite true 4503599627370496 11) in Heq.
      apply SFeqb_finite in Heq as (<- & <- & <-). done.
    + pose proof (mantissa_lt_2p53 m e Hv) as Hm.
      rewrite Z.shiftl_div_pow2 in Heq by lia.
      assert (0 < 2 ^ (- e)) as Hpow by (apply Z.pow_pos_nonneg; lia).
      pose proof (Z.div_pos (Z.pos m) (2 ^ (- e)) ltac:(lia) Hpow) as Hq0.
      assert (Z.pos m / 2 ^ (- e) <= Z.pos m) as Hq1.
      { apply Z.div_le_upper_bound; [done | nia]. }
      assert (in_int64 (cond_Zopp s (Z.pos m / 2 ^ (- e))) = true) as Hin.
      { unfold in_int64, INT64_MIN, INT64_MAX. apply andb_true_intro.
        split; apply Z.leb_le; destruct s; simpl; lia. }
      rewrite Hin in Heq.
      destruct (Z.pos m / 2 ^ (- e)) as [|p|p] eqn:Hq; [| |lia].
      * by destruct s.
      * destruct (binary_round_below_2p53 s p ltac:(lia)) as (m' & e' & He' & Hm' & Hround).
        assert (Z_to_double (cond_Zopp s (Z.pos p)) = S754_finite s m' e') as Hconv.
        { by destruct s. }
        rewrite Hconv in Heq. apply SFeqb_finite in Heq as (_ & -> & ->).
        assert (has_integer_value (S754_finite s m e) (cond_Zopp s (Z.pos p))) as Hi.
        { simpl. destruct (Z.leb_spec 0 e); [lia|]. destruct s; simpl; lia. }
        pose proof (Hnone _ Hi) as Hout.
        congruence.
Qed.

(** ** Numbers *)

(** C4. For a number [v] given to [PushArgument]: when [v] is the integer
    [n] and [n] is in the signed 64-bit range, the argument pushed is the
    64-bit integer [n]; when [v] is no integer of that range (a fraction,
    an integer beyond the range, an infinity or a NaN), the argument
    pushed is the double [v] itself. *)
Theorem number_marshaling (v : double) (rt : V8ScriptRuntime) (args : list native_arg) :
  valid_double v ->
  (forall n, has_integer_value v n -> in_int64 n = true ->
             PushArgument (JSNumber v) (rt, args) = Ok (tt, (rt, args ++ [ArgInt64 n]))) /\
  ((forall n, has_integer_value v n -> in_int64 n = false) ->
   PushArgument (JSNumber v) (rt, args) = Ok (tt, (rt, args ++ [ArgDouble v]))).
Proof.
  intros Hv. split.
  - intros n Hn Hr. destruct (number_branch_integer v n Hv Hn Hr) as [Hc Heq].
    unfold PushArgument. by rewrite Hc, Heq.
  - intros Hnone. unfold PushArgument. by rewrite (number_branch_other v Hv Hnone).
Qed.

(** ** The theorems at sample inputs *)

(** C9 at a fresh runtime: fifty-one one-letter strings, the first "a",
    the last "c". *)
Lemma string_arena_circular_witness :
  arena_wf (new_V8ScriptRuntime 7) /\
  length (replicate 49 (JSString [x62])) = 49%nat /\
  read_string
    (assign_all (JSString [x61] :: replicate 49 (JSString [x62])) (new_V8ScriptRuntime 7))
    0 = Some [x61] /\
  read_string
    (assign_all (JSString [x61] :: replicate 49 (JSString [x62]) ++ [JSString [x63]])
       (new_V8ScriptRuntime 7))
    0 = Some [x63].
Proof.
  assert (arena_wf (new_V8ScriptRuntime 7)) as Hwf
    by (split; [reflexivity | unfold countof_m_stringValues; simpl; lia]).
  assert (length (replicate 49 (JSString [x62])) = 49%nat) as Hlen by reflexivity.
  split; [exact Hwf|]. split; [exact Hlen|].
  destruct (string_arena_circular (new_V8ScriptRuntime 7) (JSString [x61]) (JSString [x61])
              (JSString [x63]) (replicate 49 (JSString [x62])) Hwf Hlen)
    as (_ & _ & _ & H50 & _ & H51).
  split; [exact H50 | exact H51].
Defined.

(** C7 at a fresh runtime: function 1 is registered for ticks, then
    function 2 for ticks, a string is stored and function 3 is registered
    for events; a tick then calls function 1. *)
Lemma first_registration_wins_witness :
  routine TickRoutine (new_V8ScriptRuntime 7) = None /\
  routine TickRoutine
    (run_ops [OpRegister TickRoutine 2%nat; OpAssignStringValue (JSString [x61]);
              OpRegister EventRoutine 3%nat]
       (register TickRoutine 1%nat (new_V8ScriptRuntime 7))) = Some 1%nat /\
  events
    (Tick idle_guest
       (run_ops [OpRegister TickRoutine 2%nat; OpAssignStringValue (JSString [x61]);
                 OpRegister EventRoutine 3%nat]
          (register TickRoutine 1%nat (new_V8ScriptRuntime 7)))
       (S754_zero false) idle_thread).2
  = [EvEnter 7%nat; EvCall 1%nat [JSNumber (S754_zero false)]; EvLeave 7%nat].
Proof.
  split; [reflexivity|].
  assert (OpDestroy ∉ [OpRegister TickRoutine 2%nat; OpAssignStringValue (JSString [x61]);
                        OpRegister EventRoutine 3%nat]) as Hno.
  { intros H. repeat (apply elem_of_cons in H as [H|H]; [discriminate H|]).
    by apply not_elem_of_nil in H. }
  destruct (first_registration_wins TickRoutine 1%nat
              [OpRegister TickRoutine 2%nat; OpAssignStringValue (JSString [x61]);
               OpRegister EventRoutine 3%nat]
              (new_V8ScriptRuntime 7) eq_refl) as (_ & Hkept & _).
  destruct (Hkept Hno) as (Hslot & _ & Hcalls).
  split; [exact Hslot|].
  rewrite (Hcalls idle_guest idle_thread (S754_zero false)). reflexivity.
Defined.

(** C10 at a fresh runtime, where every routine is unset, and at the
    sample runtime with a guest that throws. *)
Lemma unset_routine_dispatch_witness :
  CallRef idle_guest (new_V8ScriptRuntime 7) 5 [x01] idle_thread = (FX_S_OK, None, idle_thread) /\
  DuplicateRef idle_guest (new_V8ScriptRuntime 7) 5 idle_thread = (FX_S_OK, -1, idle_thread) /\
  (DuplicateRef throwing_guest sample_runtime 5 idle_thread).1 = (FX_S_OK, -1).
Proof.
  destruct (unset_routine_dispatch idle_guest no_frames (new_V8ScriptRuntime 7) idle_thread)
    as (_ & _ & Hcall & Hdup & _).
  destruct (unset_routine_dispatch throwing_guest no_frames sample_runtime idle_thread)
    as (_ & _ & _ & _ & _ & _ & Hthrow).
  split; [exact (Hcall eq_refl 5 [x01])|].
  split; [exact (Hdup eq_refl 5)|].
  exact (Hthrow 3%nat 5 JSUndefined _ eq_refl eq_refl).
Defined.

(** C2 at the registry that holds the one reference "foo", at address 0. *)
Lemma weak_callback_defers_release_witness :
  heap sample_registry !! 0%nat
    = Some {| ref := [x66; x6f; x6f]; handle := Some 1%nat; runtime := 7%nat; weak := true |} /\
  heap (FnRefWeakCallback 0 sample_registry) !! 0%nat
    = Some {| ref := [x66; x6f; x6f]; handle := None; runtime := 7%nat; weak := true |} /\
  g_cleanUpFuncRefs (FnRefWeakCallback 0 sample_registry) = [0%nat] /\
  heap (OnTick_drain (FnRefWeakCallback 0 sample_registry)) !! 0%nat = None.
Proof.
  assert (heap sample_registry !! 0%nat
          = Some {| ref := [x66; x6f; x6f]; handle := Some 1%nat;
                    runtime := 7%nat; weak := true |}) as H0 by reflexivity.
  split; [exact H0|].
  destruct (weak_callback_defers_release sample_registry 0%nat _ H0)
    as (_ & Hentry & _ & _ & Hqueue & Hfreed & _).
  split; [exact Hentry|]. split; [exact Hqueue | exact Hfreed].
Defined.

(** C6 at the sample runtime with a guest that returns 7. *)
Lemma DuplicateRef_result_witness :
  m_duplicateRefRoutine sample_runtime = Some 3%nat /\
  (DuplicateRef (constant_guest (Z_to_double 7)) sample_runtime 5 idle_thread).1.2 = 7.
Proof.
  split; [reflexivity|].
  destruct (DuplicateRef_result (constant_guest (Z_to_double 7)) sample_runtime 3%nat 5
              idle_thread eq_refl) as (_ & _ & _ & _ & _ & _ & H).
  apply (H (Z_to_double 7) 7); reflexivity.
Defined.

(** C1 at the identifier "foo", given as a string, and the payload 1, 2,
    with a host that answers with the payload. *)
Lemma reference_invocation_witness :
  carries (JSString [x66; x6f; x6f]) [x66; x6f; x6f] /\
  (invoke_reference echo_host sample_registry 1%nat (new_Uint8Array [x01; x02]) idle_thread).1
  = Some (ReturnValue (new_Uint8Array [x01; x02])) /\
  events
    (invoke_reference echo_host sample_registry 1%nat (new_Uint8Array [x01; x02]) idle_thread).2
  = [EvHostInvoke [x66; x6f; x6f] [x01; x02]].
Proof.
  assert (x00 ∉ [x66; x6f; x6f]) as Hnul.
  { intros H. repeat (apply elem_of_cons in H as [H|H]; [discriminate H|]).
    by apply not_elem_of_nil in H. }
  split; [reflexivity|].
  destruct (reference_invocation echo_host sample_runtime (JSString [x66; x6f; x6f])
              [x66; x6f; x6f] 1%nat empty_registry Uint8Array [x01; x02] 0%nat 2%nat
              idle_thread eq_refl Hnul) as (_ & Hev & Hres).
  split; [exact Hres | exact Hev].
Defined.

(** C4 at the numbers 3 and 0.5. *)
Lemma number_marshaling_witness :
  valid_double (Z_to_double 3) /\
  valid_double (S754_finite false 4503599627370496 (-53)) /\
  PushArgument (JSNumber (Z_to_double 3)) (sample_runtime, [])
    = Ok (tt, (sample_runtime, [ArgInt64 3])) /\
  PushArgument (JSNumber (S754_finite false 4503599627370496 (-53))) (sample_runtime, [])
    = Ok (tt, (sample_runtime, [ArgDouble (S754_finite false 4503599627370496 (-53))])).
Proof.
  split; [reflexivity|]. split; [reflexivity|]. split.
  - apply (proj1 (number_marshaling (Z_to_double 3) sample_runtime [] eq_refl) 3);
      reflexivity.
  - apply (proj2 (number_marshaling (S754_finite false 4503599627370496 (-53))
                    sample_runtime [] eq_refl)).
    intros n Hn. exfalso. simpl in Hn.
    change (2 ^ (- -53)) with 9007199254740992 in Hn. lia.
Defined.

(** * Further properties *)

(** ** Numbers across the boundary *)

Lemma binary_round_below_2p53_valid s p :
  Z.pos p < 2 ^ 53 ->
  exists m e, e <= 0 /\ Z.pos m = Z.pos p * 2 ^ (- e) /\
              bounded prec64 emax64 m e = true /\
              binary_round prec64 emax64 s p 0 = S754_finite s m e.
Proof.
  intros Hp. pose proof (digits2_pos_bounds p) as [Hlo Hhi].
  set (d := Z.pos (digits2_pos p)) in *.
  assert (d <= 53) as Hd.
  { destruct (Z.le_gt_cases d 53) as [|Hgt]; [done|].
    assert (2 ^ 53 <= 2 ^ (d - 1)) by (apply Z.pow_le_mono_r; lia). lia. }
  assert (0 < 2 ^ (53 - d)) as Hpow by (apply Z.pow_pos_nonneg; lia).
  exists (Z.to_pos (Z.pos p * 2 ^ (53 - d))), (d - 53).
  assert (Z.pos (Z.to_pos (Z.pos p * 2 ^ (53 - d))) = Z.pos p * 2 ^ (- (d - 53))) as Hm.
  { rewrite Z2Pos.id by lia. f_equal. f_equal. lia. }
  assert (bounded prec64 emax64 (Z.to_pos (Z.pos p * 2 ^ (53 - d))) (d - 53) = true) as Hb.
  { apply bounded_spec.
    rewrite (digits2_pos_shift p _ (- (d - 53)) ltac:(lia) Hm). fold d. lia. }
  split; [lia|]. split; [done|]. split; [done|].
  apply binary_round_small; [done | lia | done].
Qed.

(** An integer below [2^53] in magnitude converts to a double that is
    that integer. *)
Lemma Z_to_double_exact n :
  - 2 ^ 53 < n < 2 ^ 53 ->
  valid_double (Z_to_double n) /\ has_integer_value (Z_to_double n) n.
Proof.
  intros Hn. unfold Z_to_double, binary_normalize.
  destruct n as [|p|p]; [done| |].
  - destruct (binary_round_below_2p53_valid false p ltac:(lia)) as (m & e & He & Hm & Hb & ->).
    split; [done|]. simpl. destruct (Z.leb_spec 0 e).
    + assert (e = 0) as -> by lia. change (- 0) with 0 in Hm. simpl. lia.
    + simpl. lia.
  - destruct (binary_round_below_2p53_valid true p ltac:(lia)) as (m & e & He & Hm & Hb & ->).
    split; [done|]. simpl. destruct (Z.leb_spec 0 e).
    + assert (e = 0) as -> by lia. change (- 0) with 0 in Hm. simpl. lia.
    + simpl. lia.
Qed.

(** X1. An integer result of a native call, of magnitude below [2^53]
    (every 32-bit result, and the 64-bit ones of that size), converted to
    a script number by [ProcessResult] and given back as an argument to
    [PushArgument], is pushed as the 64-bit integer it was. *)
Theorem integer_result_round_trip
    (decode_object : bytes -> option jsvalue) (n : Z)
    (rt : V8ScriptRuntime) (args : list native_arg) :
  - 2 ^ 53 < n < 2 ^ 53 ->
  PushArgument (ProcessResult decode_object (ResInt64 n)) (rt, args)
    = Ok (tt, (rt, args ++ [ArgInt64 n])) /\
  PushArgument (ProcessResult decode_object (ResInt32 n)) (rt, args)
    = Ok (tt, (rt, args ++ [ArgInt64 n])).
Proof.
  intros Hn. destruct (Z_to_double_exact n Hn) as [Hv Hi].
  assert (in_int64 n = true) as Hr.
  { unfold in_int64, INT64_MIN, INT64_MAX. apply andb_true_intro.
    assert (2 ^ 53 < 2 ^ 63) by (apply Z.pow_lt_mono_r; lia).
    split; apply Z.leb_le; lia. }
  destruct (number_branch_integer _ n Hv Hi Hr) as [Hc Heq].
  cbn [ProcessResult]. unfold PushArgument. by rewrite Hc, Heq.
Qed.

(** ** Floats across the boundary *)

Lemma bounded32_spec m e :
  bounded prec32 emax32 m e = true
  <-> Z.max (Z.pos (digits2_pos m) + e - 24) (-149) = e /\ e <= 104.
Proof.
  unfold bounded, canonical_mantissa, fexp, emin, prec32, emax32.
  rewrite andb_true_iff, Z.eqb_eq, Z.leb_le. lia.
Qed.

(** Widening a float: the mantissa moves up to 53 bits. *)
Lemma float_to_double_finite s m e :
  bounded prec32 emax32 m e = true ->
  exists k, Z.pos k = 53 - Z.pos (digits2_pos m) /\
            bounded prec64 emax64 (Pos.iter xO m k) (e - Z.pos k) = true /\
            float_to_double (S754_finite s m e) = S754_finite s (Pos.iter xO m k) (e - Z.pos k).
Proof.
  intros [Hc He]%bounded32_spec.
  set (d := Z.pos (digits2_pos m)) in *.
  assert (1 <= d) as Hd1 by (unfold d; lia).
  assert (d <= 24) as Hd by lia.
  exists (Z.to_pos (53 - d)).
  assert (Z.pos (Z.to_pos (53 - d)) = 53 - d) as Hk by (rewrite Z2Pos.id; lia).
  split; [done|].
  assert (bounded prec64 emax64 (Pos.iter xO m (Z.to_pos (53 - d)))
            (e - Z.pos (Z.to_pos (53 - d))) = true) as Hb.
  { apply bounded_spec.
    rewrite (digits2_pos_shift m _ (Z.pos (Z.to_pos (53 - d)))) by (try apply iter_xO_pow; lia).
    fold d. lia. }
  split; [done|].
  unfold float_to_double, binary_round. fold d.
  assert (fexp prec64 emax64 (d + e) = e - Z.pos (Z.to_pos (53 - d))) as ->.
  { unfold fexp, emin, prec64, emax64. lia. }
  unfold shl_align.
  replace (e - Z.pos (Z.to_pos (53 - d)) - e) with (Z.neg (Z.to_pos (53 - d))) by lia.
  by apply binary_round_aux_canonical.
Qed.

(** Narrowing it again: the mantissa moves back, exactly. *)
Lemma static_cast_float_widened s m e k :
  bounded prec32 emax32 m e = true ->
  Z.pos k = 53 - Z.pos (digits2_pos m) ->
  static_cast_float (S754_finite s (Pos.iter xO m k) (e - Z.pos k)) = S754_finite s m e.
Proof.
  intros [Hc He]%bounded32_spec Hk.
  set (d := Z.pos (digits2_pos m)) in *.
  assert (Z.pos (digits2_pos (Pos.iter xO m k)) = d + Z.pos k) as Hd'.
  { apply digits2_pos_shift; [lia | apply iter_xO_pow]. }
  assert (fexp prec32 emax32 (d + e) = e) as Hf.
  { unfold fexp, emin, prec32, emax32. lia. }
  unfold static_cast_float, binary_round. rewrite Hd'.
  replace (d + Z.pos k + (e - Z.pos k)) with (d + e) by lia. rewrite Hf.
  unfold shl_align.
  replace (e - (e - Z.pos k)) with (Z.pos k) by lia.
  unfold binary_round_aux, shr_fexp at 1. cbn [Zdigits2 shr_record_of_loc].
  rewrite Hd'. replace (d + Z.pos k + (e - Z.pos k)) with (d + e) by lia. rewrite Hf.
  replace (e - (e - Z.pos k)) with (Z.pos k) by lia. cbn [shr].
  rewrite iter_shr_1_exact. cbn [shr_m loc_of_shr_record round_nearest_even].
  replace (e - Z.pos k + Z.pos k) with e by lia.
  unfold shr_fexp. cbn [Zdigits2 shr_record_of_loc]. fold d. rewrite Hf.
  rewrite shr_nonpos by lia. cbn [shr_m].
  unfold prec32, emax32. destruct (Z.leb_spec e (128 - 24)); [done | lia].
Qed.

Lemma static_cast_float_float_to_double x :
  valid_float x -> static_cast_float (float_to_double x) = x.
Proof.
  destruct x as [s|s| |s m e]; try done. intros Hb.
  destruct (float_to_double_finite s m e Hb) as (k & Hk & _ & ->).
  by apply static_cast_float_widened.
Qed.

(** X2. A float result of a native call widened to a script number and
    narrowed again is the float it was; so a vector result, converted to
    an array by [ProcessResult] and given back as an argument, is pushed
    as its three floats, in order. *)
Theorem vector_result_round_trip
    (decode_object : bytes -> option jsvalue) (x y z : float)
    (rt : V8ScriptRuntime) (args : list native_arg) :
  valid_float x -> valid_float y -> valid_float z ->
  static_cast_float (float_to_double x) = x /\
  ProcessResult decode_object (ResVector x y z)
    = JSArray [JSNumber (float_to_double x); JSNumber (float_to_double y);
               JSNumber (float_to_double z)] /\
  PushArgument (ProcessResult decode_object (ResVector x y z)) (rt, args)
    = Ok (tt, (rt, args ++ [ArgFloat x; ArgFloat y; ArgFloat z])).
Proof.
  intros Hx Hy Hz. split; [by apply static_cast_float_float_to_double|].
  split; [done|].
  change (ProcessResult decode_object (ResVector x y z))
    with (JSArray [JSNumber (float_to_double x); JSNumber (float_to_double y);
                   JSNumber (float_to_double z)]).
  set (l := [JSNumber (float_to_double x); JSNumber (float_to_double y);
             JSNumber (float_to_double z)]).
  assert (getNumber l 0 = x) as H0 by exact (static_cast_float_float_to_double x Hx).
  assert (getNumber l 1 = y) as H1 by exact (static_cast_float_float_to_double y Hy).
  assert (getNumber l 2 = z) as H2 by exact (static_cast_float_float_to_double z Hz).
  unfold PushArgument. cbn [length l Nat.ltb Nat.leb orb]. fold l.
  rewrite H0, H1, H2.
  unfold when_, mbind, marshal_bind, mret, marshal_ret, throw, Push.
  rewrite !fp_eq_NAN. cbn [orb]. by rewrite <- !app_assoc.
Qed.

(** ** String arguments *)

Lemma assign_all_lookup vs rt i v :
  arena_wf rt -> (length vs <= 50)%nat -> vs !! i = Some v ->
  m_stringValues (assign_all vs rt) !! ((m_curStringValue rt + i) mod 50)%nat
  = Some (Some (Utf8Value v)).
Proof.
  revert rt i. induction vs as [|v0 vs IH]; intros rt i Hwf Hlen Hi; [done|].
  change (assign_all (v0 :: vs) rt) with (assign_all vs (AssignStringValue v0 rt).2).
  pose proof (AssignStringValue_wf v0 rt Hwf) as Hwf1.
  simpl in Hlen. destruct i as [|i]; simpl in Hi.
  - injection Hi as ->. destruct Hwf as [Hl Hc]. unfold countof_m_stringValues in *.
    rewrite Nat.add_0_r, Nat.mod_small by done.
    rewrite assign_all_untouched; [| done |].
    + by apply AssignStringValue_slot.
    + intros j Hj. simpl. unfold countof_m_stringValues.
      rewrite Nat.Div0.add_mod_idemp_l.
      replace (m_curStringValue rt + 1 + j)%nat with (m_curStringValue rt + (1 + j))%nat by lia.
      apply cursor_away; lia.
  - specialize (IH _ i Hwf1 ltac:(lia) Hi). simpl in IH. unfold countof_m_stringValues in IH.
    rewrite Nat.Div0.add_mod_idemp_l in IH.
    by replace (m_curStringValue rt + S i)%nat with (m_curStringValue rt + 1 + i)%nat by lia.
Qed.

Lemma push_strings ss rt args :
  arena_wf rt ->
  push_arguments (map JSString ss) (rt, args)
  = Ok (tt, (assign_all (map JSString ss) rt,
             args ++ imap (fun i s => ArgString ((m_curStringValue rt + i) mod 50)%nat (length s))
                          ss)).
Proof.
  revert rt args. induction ss as [|s ss IH]; intros rt args Hwf.
  - simpl. by rewrite app_nil_r.
  - pose proof (AssignStringValue_wf (JSString s) rt Hwf) as Hwf1.
    cbn [map push_arguments]. unfold mbind at 1, marshal_bind.
    unfold PushArgument, assign_string, mbind, marshal_bind, Push.
    cbn [AssignStringValue Utf8Value]. cbn [assign_all foldl].
    fold (assign_all (map JSString ss)).
    rewrite IH by done. cbn [map assign_all foldl AssignStringValue snd Utf8Value].
    f_equal. f_equal. f_equal.
    rewrite <- app_assoc. f_equal. cbn [imap app]. f_equal.
    + destruct Hwf as [_ Hc]. unfold countof_m_stringValues in Hc.
      by rewrite Nat.add_0_r, Nat.mod_small.
    + apply imap_ext. intros i x _. cbn [m_curStringValue with_strings compose].
      unfold countof_m_stringValues. rewrite Nat.Div0.add_mod_idemp_l.
      do 2 f_equal. lia.
Qed.

(** X3. Up to fifty string arguments of one native call are safe: with
    the arena well formed, pushing them succeeds, gives one string
    argument per string, in order, with the string's length, and after
    the last push every argument's pointer still reads its own string. *)
Theorem fifty_string_arguments (ss : list bytes) (rt : V8ScriptRuntime) :
  arena_wf rt ->
  (length ss <= 50)%nat ->
  exists rt' nargs,
    push_arguments (map JSString ss) (rt, []) = Ok (tt, (rt', nargs)) /\
    length nargs = length ss /\
    arena_wf rt' /\
    forall i s, ss !! i = Some s ->
      exists slot, nargs !! i = Some (ArgString slot (length s)) /\
                   read_string rt' slot = Some s.
Proof.
  intros Hwf Hlen. eexists _, _. split; [by apply push_strings|].
  split; [by rewrite app_nil_l, length_imap|]. split; [by apply assign_all_wf|].
  intros i s Hi. exists ((m_curStringValue rt + i) mod 50)%nat. split.
  - rewrite app_nil_l, list_lookup_imap, Hi. done.
  - unfold read_string.
    rewrite (assign_all_lookup _ rt i (JSString s)); [done | done | | ].
    + by rewrite length_map.
    + by rewrite list_lookup_fmap, Hi.
Qed.

(** ** What marshaling leaves alone *)

Lemma routine_with_strings k slots cur rt :
  routine k (with_strings slots cur rt) = routine k rt.
Proof. by destruct k. Qed.

Lemma PushArgument_frame arg rt args u rt' args' :
  PushArgument arg (rt, args) = Ok (u, (rt', args')) ->
  (exists new, args' = args ++ new /\
               length new = match arg with JSArray l => length l | _ => 1%nat end) /\
  (forall k, routine k rt' = routine k rt) /\
  self rt' = self rt /\ m_taskQueue rt' = m_taskQueue rt /\
  (arena_wf rt -> arena_wf rt') /\
  (match arg with JSString _ => True | _ => rt' = rt end).
Proof.
  assert (forall new n,
            length new = n ->
            (exists new0, args ++ new = args ++ new0 /\ length new0 = n) /\
            (forall k, routine k rt = routine k rt) /\
            self rt = self rt /\ m_taskQueue rt = m_taskQueue rt /\
            (arena_wf rt -> arena_wf rt)) as Hsame.
  { intros new n Hn. split; [by exists new|]. done. }
  destruct arg as [| | b | b | d | utf8 | ptr | l | kind store offset len | props | f | str];
    unfold PushArgument, throw, Push.
  - intros [= <- <- <-]. by destruct (Hsame [ArgInt32 0] 1%nat eq_refl) as (? & ? & ? & ? & ?).
  - intros [= <- <- <-]. by destruct (Hsame [ArgInt32 0] 1%nat eq_refl) as (? & ? & ? & ? & ?).
  - intros [= <- <- <-]. by destruct (Hsame [ArgBool b] 1%nat eq_refl) as (? & ? & ? & ? & ?).
  - intros [= <- <- <-]. by destruct (Hsame [ArgBool true] 1%nat eq_refl) as (? & ? & ? & ? & ?).
  - cbv zeta. destruct (fp_eq (Z_to_double (static_cast_int64 d)) d);
      intros [= <- <- <-].
    + by destruct (Hsame [ArgInt64 (static_cast_int64 d)] 1%nat eq_refl) as (? & ? & ? & ? & ?).
    + by destruct (Hsame [ArgDouble d] 1%nat eq_refl) as (? & ? & ? & ? & ?).
  - unfold assign_string, mbind, marshal_bind, Push. cbn [AssignStringValue].
    intros [= <- <- <-]. split; [by eexists|]. split; [|split; [done|split; [done|split; [|done]]]].
    + intros k. apply routine_with_strings.
    + intros Hwf. apply (AssignStringValue_wf (JSString utf8) rt Hwf).
  - intros [= <- <- <-]. by destruct (Hsame [ArgMetaPointer ptr] 1%nat eq_refl) as (? & ? & ? & ? & ?).
  - destruct l as [|a [|b [|c [|d [|e l]]]]];
      cbn [length Nat.ltb Nat.leb orb when_];
      unfold mbind, marshal_bind, mret, marshal_ret, throw, Push, when_;
      rewrite ?fp_eq_NAN; cbn [orb]; try discriminate;
      intros [= <- <- <-]; rewrite <- ?app_assoc; cbn [app].
    + by destruct (Hsame [ArgFloat (getNumber [a; b] 0); ArgFloat (getNumber [a; b] 1)]
                     2%nat eq_refl) as (? & ? & ? & ? & ?).
    + by destruct (Hsame [ArgFloat (getNumber [a; b; c] 0); ArgFloat (getNumber [a; b; c] 1);
                          ArgFloat (getNumber [a; b; c] 2)]
                     3%nat eq_refl) as (? & ? & ? & ? & ?).
    + by destruct (Hsame [ArgFloat (getNumber [a; b; c; d] 0);
                          ArgFloat (getNumber [a; b; c; d] 1);
                          ArgFloat (getNumber [a; b; c; d] 2);
                          ArgFloat (getNumber [a; b; c; d] 3)]
                     4%nat eq_refl) as (? & ? & ? & ? & ?).
  - intros [= <- <- <-].
    by destruct (Hsame [ArgBuffer store offset (length store)] 1%nat eq_refl)
      as (? & ? & ? & ? & ?).
  - cbv zeta. destruct (IsNumber (object_get props "__data")); [|discriminate].
    intros [= <- <- <-].
    by destruct (Hsame [ArgInt32 (Int32Value (object_get props "__data"))] 1%nat eq_refl)
      as (? & ? & ? & ? & ?).
  - discriminate.
  - discriminate.
Qed.

(** X4. Marshaling touches nothing of the runtime but the string arena.
    When arguments that are read without running script (numbers,
    booleans, strings, null, undefined, meta pointers and buffer views)
    have been pushed, the runtime's seven routines, its address and its
    task queue are as before and a well-formed arena is still well
    formed; when none of them is a string the runtime is exactly as
    before.  The pushes only append to the argument list, one slot per
    argument. *)
Theorem marshaling_touches_only_the_arena
    (l : list jsvalue) (rt rt' : V8ScriptRuntime) (args args' : list native_arg) :
  Forall (fun arg => scalar_argument arg = true) l ->
  push_arguments l (rt, args) = Ok (tt, (rt', args')) ->
  (forall k, routine k rt' = routine k rt) /\
  self rt' = self rt /\ m_taskQueue rt' = m_taskQueue rt /\
  (arena_wf rt -> arena_wf rt') /\
  ((forall utf8, JSString utf8 ∉ l) -> rt' = rt) /\
  (exists new, args' = args ++ new /\ length new = length l).
Proof.
  intros Hl. revert rt args. induction Hl as [|arg l Harg Hl IH]; intros rt args.
  - intros [= <- <-]. repeat (split; [done|]). exists []. by rewrite app_nil_r.
  - cbn [push_arguments]. unfold mbind at 1, marshal_bind.
    destruct (PushArgument arg (rt, args)) as [[[] [rt1 args1]]|e] eqn:E; [|discriminate].
    intros H. apply IH in H as (Hr & Hs & Ht & Hwf & Hstr & (new2 & -> & Hlen2)).
    apply PushArgument_frame in E as ((new1 & -> & Hlen1) & Hr1 & Hs1 & Ht1 & Hwf1 & Hstr1).
    split; [intros k; by rewrite Hr, Hr1|].
    split; [congruence|]. split; [congruence|]. split; [auto|]. split.
    + intros Hno. rewrite Hstr.
      * destruct arg; try done. exfalso. apply (Hno utf8). apply elem_of_cons. by left.
      * intros utf8 Hin. apply (Hno utf8). apply elem_of_cons. by right.
    + exists (new1 ++ new2). split; [by rewrite app_assoc|].
      rewrite length_app, Hlen2. cbn [length].
      destruct arg; try discriminate Harg; lia.
Qed.

(** ** Invoking a native by its hash *)

Lemma trunc_Z_to_double n : - 2 ^ 53 < n < 2 ^ 53 -> trunc (Z_to_double n) = Some n.
Proof. intros Hn. apply trunc_integer. by apply Z_to_double_exact. Qed.

Lemma to_uint32_Z_to_double n : 0 <= n < 2 ^ 32 -> to_uint32 (Z_to_double n) = n.
Proof.
  intros Hn. unfold to_uint32.
  assert (2 ^ 32 < 2 ^ 53) by (apply Z.pow_lt_mono_r; lia).
  rewrite trunc_Z_to_double by lia. by apply Z.mod_small.
Qed.

Lemma to_uint32_range d : 0 <= to_uint32 d < 2 ^ 32.
Proof.
  assert (0 < 2 ^ 32) by reflexivity.
  unfold to_uint32. destruct (trunc d).
  - by apply Z.mod_pos_bound.
  - split; [reflexivity | done].
Qed.

Lemma lor_shiftl_32 lo hi :
  0 <= lo < 2 ^ 32 -> Z.lor lo (Z.shiftl hi 32) = hi * 2 ^ 32 + lo.
Proof.
  intros Hlo.
  assert (Z.land lo (Z.shiftl hi 32) = 0) as Hland.
  { apply Z.bits_inj'. intros n Hn. rewrite Z.land_spec, Z.bits_0.
    destruct (Z.lt_ge_cases n 32).
    - rewrite (Z.shiftl_spec_low hi 32 n) by done. apply andb_false_r.
    - rewrite <- (Z.mod_small lo (2 ^ 32)) by done.
      by rewrite Z.mod_pow2_bits_high by lia. }
  pose proof (Z.add_lor_land lo (Z.shiftl hi 32)) as H.
  rewrite Hland in H. rewrite Z.shiftl_mul_pow2 in H |- * by lia. lia.
Qed.

(** X5. [V8_InvokeNativeHash] puts the two 32-bit halves of a hash
    together exactly: called with the numbers [hi] and [lo] (each in
    [0, 2^32)) and then the native's arguments, it pushes those arguments
    and invokes the native [hi * 2^32 + lo]; an error raised while
    pushing, or by the native, comes back as a thrown script error with
    the error's message.  With fewer than two arguments it throws "wrong
    argument count (needs at least two hash integers)" and invokes
    nothing.  Whatever two numbers are given, the hash is in
    [0, 2^64). *)
Theorem invoke_by_hash
    (decode_object : bytes -> option jsvalue)
    (native_Invoke : Z -> list native_arg -> result (list native_result))
    (rt : V8ScriptRuntime) (hi lo : Z) (rest : list jsvalue) :
  0 <= hi < 2 ^ 32 ->
  0 <= lo < 2 ^ 32 ->
  V8_InvokeNativeHash decode_object native_Invoke rt
    (JSNumber (Z_to_double hi) :: JSNumber (Z_to_double lo) :: rest)
  = Some match push_arguments rest (rt, []) with
         | Err e => NativeThrow (c_str (what e))
         | Ok (_, (rt', context)) =>
             match native_Invoke (hi * 2 ^ 32 + lo) context with
             | Err e => NativeThrow (c_str (what e))
             | Ok results => NativeReturn (collect_results decode_object results) rt'
             end
         end /\
  (forall args, (length args < 2)%nat ->
     V8_InvokeNativeHash decode_object native_Invoke rt args
     = Some (NativeThrow
               (String.list_byte_of_string
                  "wrong argument count (needs at least two hash integers)"))) /\
  (forall d0 d1, 0 <= Z.lor (to_uint32 d1) (Z.shiftl (to_uint32 d0) 32) < 2 ^ 64).
Proof.
  intros Hhi Hlo. split; [|split].
  - unfold V8_InvokeNativeHash. cbn [length Nat.ltb Nat.leb].
    set (args := JSNumber (Z_to_double hi) :: JSNumber (Z_to_double lo) :: rest).
    assert (Uint32Value (array_get args 1) = Some (to_uint32 (Z_to_double lo))) as ->
      by reflexivity.
    assert (Uint32Value (array_get args 0) = Some (to_uint32 (Z_to_double hi))) as ->
      by reflexivity.
    rewrite !to_uint32_Z_to_double, lor_shiftl_32 by done.
    unfold V8_InvokeNative. change (drop 2 args) with rest.
    destruct (push_arguments rest (rt, [])) as [[[] [rt' context]]|e]; [|done].
    by destruct (native_Invoke (hi * 2 ^ 32 + lo) context).
  - intros args Hlen. unfold V8_InvokeNativeHash.
    destruct (Nat.ltb_spec (length args) 2); [done | lia].
  - intros d0 d1. pose proof (to_uint32_range d0). pose proof (to_uint32_range d1).
    rewrite lor_shiftl_32 by done.
    change (2 ^ 64) with (2 ^ 32 * 2 ^ 32). nia.
Qed.

(** ** The life of a reference *)

Lemma fresh_not_allocated (h : gmap nat RefAndPersistent) : h !! fresh (dom h) = None.
Proof. apply not_elem_of_dom. apply is_fresh. Qed.

(** X6. A reference from creation to release.  [V8_MakeFunctionReference]
    allocates at an address that was free, leaves every existing entry,
    the other functions and the queue as they were, and the new entry
    holds the identifier read from the argument, a weak handle to the
    new function, and the runtime's address.  When [Function::New] gives
    no function the entry is deleted again and the registry is exactly
    as before: nothing is leaked and nothing queued.  After the
    finalization callback for the new entry and one drain the allocated
    entries are exactly those a drain would have left without the
    creation (the new entry is freed along with whatever was queued
    before), and the queue is empty. *)
Theorem reference_life_cycle
    (rt : V8ScriptRuntime) (arg0 : jsvalue) (outFn : nat) (reg : registry) :
  let data := fresh (dom (heap reg)) in
  let made := (V8_MakeFunctionReference rt arg0 (Some outFn) reg).2 in
  let released := OnTick_drain (FnRefWeakCallback data made) in
  heap reg !! data = None /\
  heap made !! data
    = Some {| ref := refString arg0; handle := Some outFn; runtime := self rt; weak := true |} /\
  (forall p, p <> data -> heap made !! p = heap reg !! p) /\
  functions made !! outFn = Some data /\
  (forall f, f <> outFn -> functions made !! f = functions reg !! f) /\
  g_cleanUpFuncRefs made = g_cleanUpFuncRefs reg /\
  V8_MakeFunctionReference rt arg0 None reg = (JSUndefined, reg) /\
  heap released = heap (OnTick_drain reg) /\
  heap released !! data = None /\
  g_cleanUpFuncRefs released = [].
Proof.
  intros data made released. subst made released.
  pose proof (fresh_not_allocated (heap reg)) as Hfresh. fold data in Hfresh.
  unfold V8_MakeFunctionReference. fold data. cbn [fst snd heap functions g_cleanUpFuncRefs ref runtime].
  split; [done|]. split; [by rewrite lookup_insert_eq|].
  split; [intros p Hp; by rewrite !lookup_insert_ne|].
  split; [by rewrite lookup_insert_eq|].
  split; [intros f Hf; by rewrite lookup_insert_ne|].
  split; [done|]. split.
  { f_equal. destruct reg as [h fs q]. cbn [heap functions g_cleanUpFuncRefs] in *.
    f_equal. rewrite delete_insert_eq. by apply delete_id. }
  unfold OnTick_drain, FnRefWeakCallback. cbn [heap functions g_cleanUpFuncRefs].
  assert (forall p,
            drain_loop (g_cleanUpFuncRefs reg ++ [data])
              (alter (fun e => {| ref := ref e; handle := None; runtime := runtime e;
                                  weak := weak e |}) data
                 (<[data := {| ref := refString arg0; handle := Some outFn;
                               runtime := self rt; weak := true |}]>
                    (<[data := {| ref := refString arg0; handle := None;
                                  runtime := self rt; weak := false |}]> (heap reg)))) !! p
            = drain_loop (g_cleanUpFuncRefs reg) (heap reg) !! p) as Hheap.
  { intros p. rewrite !drain_loop_lookup.
    destruct (decide (p = data)) as [->|Hp].
    - rewrite decide_True by (apply elem_of_app; right; apply elem_of_cons; by left).
      by destruct (decide (data ∈ g_cleanUpFuncRefs reg)).
    - destruct (decide (p ∈ g_cleanUpFuncRefs reg)) as [Hin|Hin].
      + rewrite decide_True by (apply elem_of_app; by left). done.
      + rewrite decide_False.
        * by rewrite lookup_alter_ne, !lookup_insert_ne.
        * intros [?|[?|?%not_elem_of_nil]%elem_of_cons]%elem_of_app; done. }
  split; [by apply map_eq|]. split; [|done].
  rewrite drain_loop_lookup.
  by rewrite decide_True by (apply elem_of_app; right; apply elem_of_cons; by left).
Qed.

(** ** Scopes of the node handler *)

(** X7. The two handlers given to [node::SetScopeHandler] are balanced:
    entering a scope and leaving it at once puts the scope stack and the
    current runtime back as they were and leaves the garbage collector's
    counter alone.  A runtime entry is pushed only for a runtime that is
    not already current and, under a held lock, only when [TryPush]
    succeeds; it adds the events of one scope (enter, a checkpoint when
    due, leave).  A no-op or no-runtime entry adds no event at all. *)
Theorem node_scope_balanced (runtime : option V8ScriptRuntime) (IsLocked TryPush : bool)
    (st : thread_state) :
  let st' := node_scope_leave (node_scope_enter runtime IsLocked TryPush st) in
  g_envStack st' = g_envStack st /\
  g_currentV8Runtime st' = g_currentV8Runtime st /\
  g_isV8InGc st' = g_isV8InGc st /\
  events st'
  = events st ++
    match runtime with
    | Some rt =>
        if decide (g_currentV8Runtime st = Some (self rt)) then []
        else if IsLocked && negb TryPush then []
        else [EvEnter (self rt)]
             ++ (if m_taskQueue rt && (g_isV8InGc st =? 0)
                 then [EvPerformCheckpoint (self rt)] else [])
             ++ [EvLeave (self rt)]
    | None => []
    end.
Proof.
  intros st'. subst st'. unfold node_scope_enter.
  destruct runtime as [rt|]; [|by rewrite app_nil_r].
  destruct (decide (g_currentV8Runtime st = Some (self rt))); [by rewrite app_nil_r|].
  assert (forall s,
            s = node_scope_leave
                  (let '(last, st0) := V8PushEnvironment_enter rt st in
                   set_envStack (V8LitePushEnvironment rt last :: g_envStack st0) st0) ->
            g_envStack s = g_envStack st /\
            g_currentV8Runtime s = g_currentV8Runtime st /\
            g_isV8InGc s = g_isV8InGc st /\
            events s = events st ++ [EvEnter (self rt)]
                       ++ (if m_taskQueue rt && (g_isV8InGc st =? 0)
                           then [EvPerformCheckpoint (self rt)] else [])
                       ++ [EvLeave (self rt)]) as Hlite.
  { intros s ->. unfold V8PushEnvironment_enter, node_scope_leave.
    cbn [g_envStack set_envStack set_current emit].
    unfold V8PushEnvironment_leave, RunMicrotasks.
    cbn [g_isV8InGc set_envStack set_current emit].
    destruct (m_taskQueue rt); cbn [andb]; [destruct (g_isV8InGc st =? 0)|];
      cbn [g_envStack g_currentV8Runtime g_isV8InGc events emit set_current set_envStack];
      by rewrite <- ?app_assoc. }
  destruct IsLocked; [destruct TryPush|]; cbn [andb negb].
  - by apply Hlite.
  - by rewrite app_nil_r.
  - by apply Hlite.
Qed.

(** ** Garbage collection and checkpoints *)

Lemma GC_prologues n st :
  g_isV8InGc (Nat.iter n GCPrologueCallback st) = g_isV8InGc st + Z.of_nat n /\
  events (Nat.iter n GCPrologueCallback st) = events st /\
  g_currentV8Runtime (Nat.iter n GCPrologueCallback st) = g_currentV8Runtime st.
Proof.
  induction n as [|n (IH1 & IH2 & IH3)]; [simpl; split; [lia | done]|].
  rewrite Nat.iter_succ. unfold GCPrologueCallback at 1 3 5.
  cbn [g_isV8InGc events g_currentV8Runtime]. rewrite IH1. split; [lia | done].
Qed.

Lemma GC_epilogues n st :
  g_isV8InGc (Nat.iter n GCEpilogueCallback st) = g_isV8InGc st - Z.of_nat n /\
  events (Nat.iter n GCEpilogueCallback st) = events st /\
  g_currentV8Runtime (Nat.iter n GCEpilogueCallback st) = g_currentV8Runtime st.
Proof.
  induction n as [|n (IH1 & IH2 & IH3)]; [simpl; split; [lia | done]|].
  rewrite Nat.iter_succ. unfold GCEpilogueCallback at 1 3 5.
  cbn [g_isV8InGc events g_currentV8Runtime]. rewrite IH1. split; [lia | done].
Qed.

(** X8. Garbage-collection passes may nest: the prologue and epilogue
    callbacks count the depth and add no event.  Starting outside any
    pass, after [n] prologues and [m <= n] epilogues the depth is
    [n - m], and [RunMicrotasks] performs a checkpoint exactly when the
    runtime has a task queue and every pass has ended ([m = n]); an exit
    of an environment scope in between performs none. *)
Theorem checkpoints_wait_for_gc (rt : V8ScriptRuntime) (st : thread_state) (n m : nat) :
  g_isV8InGc st = 0 ->
  (m <= n)%nat ->
  let st' := Nat.iter m GCEpilogueCallback (Nat.iter n GCPrologueCallback st) in
  g_isV8InGc st' = Z.of_nat (n - m) /\
  events st' = events st /\
  RunMicrotasks rt st'
  = (if m_taskQueue rt && (n =? m)%nat then emit (EvPerformCheckpoint (self rt)) st' else st') /\
  events (V8PushEnvironment_leave rt None st')
  = events st ++ (if m_taskQueue rt && (n =? m)%nat then [EvPerformCheckpoint (self rt)] else [])
              ++ [EvLeave (self rt)].
Proof.
  intros H0 Hmn st'.
  destruct (GC_prologues n st) as (Hp1 & Hp2 & _).
  destruct (GC_epilogues m (Nat.iter n GCPrologueCallback st)) as (He1 & He2 & _).
  fold st' in He1, He2.
  assert (g_isV8InGc st' = Z.of_nat (n - m)) as Hd by lia.
  assert (events st' = events st) as Hev by congruence.
  assert (RunMicrotasks rt st'
          = (if m_taskQueue rt && (n =? m)%nat
             then emit (EvPerformCheckpoint (self rt)) st' else st')) as Hrun.
  { unfold RunMicrotasks. rewrite Hd. destruct (m_taskQueue rt); [|done]. cbn [andb].
    destruct (Nat.eqb_spec n m) as [->|Hne].
    - by rewrite Nat.sub_diag.
    - destruct (Z.eqb_spec (Z.of_nat (n - m)) 0); [lia | done]. }
  split; [done|]. split; [done|]. split; [done|].
  unfold V8PushEnvironment_leave. rewrite Hrun.
  destruct (m_taskQueue rt && (n =? m)%nat);
    cbn [events emit set_current]; rewrite Hev; by rewrite <- ?app_assoc.
Qed.

(** ** After Destroy *)

(** X9. [Destroy] always succeeds and leaves the runtime without a
    context, so a warning emitted afterwards calls nothing; the thread's
    current runtime is the one from before.  The five routines are
    emptied before anything else is done: with them empty, ticks, events,
    reference calls, duplications and removals return success without
    entering a scope or calling the guest, [CallRef] with no buffer and
    [DuplicateRef] with -1.  Where node is not in use that is the runtime
    [Destroy] leaves, the environment table is untouched, and the only
    events are those of one scope: of the plain environment push in the
    build without node, and of a full scope, with its checkpoint, in the
    build with node.  Where node is in use the environment is taken out
    of the table and freed inside the scope, with the routines already
    empty. *)
Theorem dispatch_after_Destroy
    (guest : nat -> list jsvalue -> thread_state -> call_outcome * thread_state)
    (b : build)
    (FreeEnvironment : V8ScriptRuntime -> thread_state -> V8ScriptRuntime * thread_state)
    (m_nodeEnvironment : nat) (rt : V8ScriptRuntime) (g_envRuntimes : gmap nat nat)
    (st : thread_state) :
  let emptied := Destroy_routines rt in
  let '(hr, rt', m_context, g_envRuntimes', st') :=
    Destroy b FreeEnvironment m_nodeEnvironment rt g_envRuntimes st in
  hr = FX_S_OK /\
  m_context = None /\
  (forall channel message st0,
     EmitWarning guest m_context channel message st0 = Some (FX_S_OK, st0)) /\
  g_currentV8Runtime st' = g_currentV8Runtime st /\
  (forall st0,
     (forall time, Tick guest emptied time st0 = (FX_S_OK, st0)) /\
     (forall name payload source,
        TriggerEvent guest emptied name payload source st0 = (FX_S_OK, st0)) /\
     (forall refIdx args, CallRef guest emptied refIdx args st0 = (FX_S_OK, None, st0)) /\
     (forall refIdx, DuplicateRef guest emptied refIdx st0 = (FX_S_OK, -1, st0)) /\
     (forall refIdx, RemoveRef guest emptied refIdx st0 = (FX_S_OK, st0))) /\
  (V8_NODE b && UseNode b = false ->
   rt' = emptied /\ g_envRuntimes' = g_envRuntimes /\
   events st'
   = events st ++ [EvEnter (self rt)]
     ++ (if V8_NODE b && m_taskQueue rt && (g_isV8InGc st =? 0)
         then [EvPerformCheckpoint (self rt)] else [])
     ++ [EvLeave (self rt)]) /\
  (V8_NODE b && UseNode b = true ->
   rt' = (FreeEnvironment emptied (V8PushEnvironment_enter emptied st).2).1 /\
   g_envRuntimes' = delete m_nodeEnvironment g_envRuntimes).
Proof.
  intros emptied. unfold Destroy. fold emptied.
  destruct (V8_NODE b); cbn [andb];
    [destruct (UseNode b); cbn [andb]|].
  - unfold V8PushEnvironment_enter.
    destruct (FreeEnvironment emptied _) as [rt1 st1] eqn:E. cbn [fst snd].
    split; [done|]. split; [done|]. split; [done|]. split.
    { unfold V8PushEnvironment_leave, RunMicrotasks.
      by destruct (m_taskQueue rt1); [destruct (g_isV8InGc st1 =? 0)|]. }
    split; [done|]. split; [discriminate|]. done.
  - unfold V8PushEnvironment_enter, V8PushEnvironment_leave, RunMicrotasks.
    cbn [fst snd g_isV8InGc set_current emit].
    split; [done|]. split; [done|]. split; [done|]. split.
    { by destruct (m_taskQueue emptied); [destruct (g_isV8InGc st =? 0)|]. }
    split; [done|]. split; [|discriminate].
    intros _. split; [done|]. split; [done|].
    change (m_taskQueue emptied) with (m_taskQueue rt).
    change (self emptied) with (self rt).
    destruct (m_taskQueue rt); [destruct (g_isV8InGc st =? 0)|];
      cbn [andb events emit set_current]; by rewrite <- ?app_assoc.
  - split; [done|]. split; [done|]. split; [done|]. split; [done|].
    split; [done|]. split; [|discriminate].
    intros _. split; [done|]. split; [done|].
    cbn [events emit]. by rewrite <- app_assoc.
Qed.

(** ** Calling a reference of the guest *)

Lemma view_contents_whole (b : bytes) : view_contents b 0 (length b) = b.
Proof. unfold view_contents. by rewrite drop_0, firstn_all. Qed.

(** X10. [CallRef] with the routine set never fails and never lets a
    script exception through: it returns success; the buffer is a copy
    of the bytes under the view the guest function returned, and nothing
    when the function threw or returned anything else; an exception is
    traced once, and the scope is left (with its checkpoint) in every
    case, the current runtime being restored.  The argument bytes reach
    the guest unchanged: a function that returns its payload argument
    makes [CallRef] return exactly [argsSerialized]. *)
Theorem CallRef_result
    (guest : nat -> list jsvalue -> thread_state -> call_outcome * thread_state)
    (rt : V8ScriptRuntime) (f : nat) (refIdx : Z) (argsSerialized : bytes)
    (st : thread_state) :
  m_callRefRoutine rt = Some f ->
  let out := Call guest f [JSNumber (Z_to_double refIdx); new_Uint8Array argsSerialized]
               (V8PushEnvironment_enter rt st).2 in
  let r := CallRef guest rt refIdx argsSerialized st in
  r.1.1 = FX_S_OK /\
  r.1.2 = match out.1 with
          | Returned (JSArrayBufferView _ store offset len) =>
              Some (view_contents store offset len)
          | _ => None
          end /\
  events r.2
  = events out.2
    ++ match out.1 with
       | Threw e => [EvScriptTrace TraceCallRef (self rt) e]
       | Returned _ => []
       end
    ++ (if m_taskQueue rt && (g_isV8InGc out.2 =? 0)
        then [EvPerformCheckpoint (self rt)] else [])
    ++ [EvLeave (self rt)] /\
  g_currentV8Runtime r.2 = g_currentV8Runtime st /\
  (out.1 = Returned (new_Uint8Array argsSerialized) -> r.1.2 = Some argsSerialized).
Proof.
  intros Hset out r. subst out r. unfold CallRef. rewrite Hset.
  unfold V8PushEnvironment, callRef_closure, V8PushEnvironment_enter. cbn [snd].
  destruct (Call guest f _ _) as [o st2]. cbn [fst snd].
  assert (forall st3 : thread_state,
            g_isV8InGc st3 = g_isV8InGc st2 ->
            events (V8PushEnvironment_leave rt (g_currentV8Runtime (emit (EvEnter (self rt)) st)) st3)
            = events st3 ++ (if m_taskQueue rt && (g_isV8InGc st2 =? 0)
                             then [EvPerformCheckpoint (self rt)] else [])
                         ++ [EvLeave (self rt)]) as Hleave.
  { intros st3 Hgc. unfold V8PushEnvironment_leave, RunMicrotasks. rewrite Hgc.
    destruct (m_taskQueue rt); cbn [andb]; [destruct (g_isV8InGc st2 =? 0)|];
      cbn [events emit set_current]; by rewrite <- ?app_assoc. }
  assert (forall st3 : thread_state,
            g_currentV8Runtime
              (V8PushEnvironment_leave rt (g_currentV8Runtime (emit (EvEnter (self rt)) st)) st3)
            = g_currentV8Runtime st) as Hcur.
  { intros st3. unfold V8PushEnvironment_leave, RunMicrotasks.
    by destruct (m_taskQueue rt && (g_isV8InGc st3 =? 0)). }
  destruct o as [v|e].
  - destruct v; cbn [fst snd]; rewrite ?Hleave, ?Hcur by done;
      (split; [done|]; split; [done|]; split; [done|]; split; [done|]);
      try discriminate.
    intros [= -> -> -> ->]. by rewrite view_contents_whole.
  - cbn [fst snd]. rewrite Hleave, Hcur by done. cbn [events emit].
    rewrite <- app_assoc. done.
Qed.

(** ** Walking the stack *)

Lemma submit_frames_events frames st :
  events (foldl (fun st e => emit (EvSubmitStackFrame e) st) st frames)
  = events st ++ map EvSubmitStackFrame frames /\
  g_isV8InGc (foldl (fun st e => emit (EvSubmitStackFrame e) st) st frames) = g_isV8InGc st.
Proof.
  revert st. induction frames as [|fr frames IH]; intros st.
  - simpl. by rewrite app_nil_r.
  - cbn [foldl map]. destruct (IH (emit (EvSubmitStackFrame fr) st)) as [-> ->].
    cbn [events emit g_isV8InGc]. by rewrite <- app_assoc.
Qed.

(** X11. [WalkStack] with the routine set calls the guest function with
    the two boundary hints (null for an absent boundary).  When the
    function returns a view whose bytes decode to a list of frames, every
    frame is submitted to the visitor, once and in order, before the
    scope is left, and the walk succeeds.  When the function throws, the
    exception is traced, no frame is submitted and the walk still
    succeeds.  When the bytes do not decode, no frame is submitted and
    the scope is left all the same. *)
Theorem WalkStack_frames
    (guest : nat -> list jsvalue -> thread_state -> call_outcome * thread_state)
    (unpack_frames : bytes -> option (list bytes))
    (rt : V8ScriptRuntime) (f : nat) (boundaryStart boundaryEnd : option Z)
    (st : thread_state) :
  m_stackTraceRoutine rt = Some f ->
  let hint (b : option Z) :=
    match b with Some h => JSNumber (Z_to_double h) | None => JSNull end in
  let out := Call guest f [hint boundaryStart; hint boundaryEnd]
               (V8PushEnvironment_enter rt st).2 in
  let r := WalkStack guest unpack_frames rt boundaryStart boundaryEnd st in
  let leave := (if m_taskQueue rt && (g_isV8InGc out.2 =? 0)
                then [EvPerformCheckpoint (self rt)] else [])
               ++ [EvLeave (self rt)] in
  (forall kind store offset len frames,
     out.1 = Returned (JSArrayBufferView kind store offset len) ->
     unpack_frames (view_contents store offset len) = Some frames ->
     r.1 = Some FX_S_OK /\
     events r.2 = events out.2 ++ map EvSubmitStackFrame frames ++ leave) /\
  (forall kind store offset len,
     out.1 = Returned (JSArrayBufferView kind store offset len) ->
     unpack_frames (view_contents store offset len) = None ->
     r.1 = None /\ events r.2 = events out.2 ++ leave) /\
  (forall e,
     out.1 = Threw e ->
     r.1 = Some FX_S_OK /\
     events r.2 = events out.2 ++ [EvScriptTrace TraceStackTrace (self rt) e] ++ leave).
Proof.
  intros Hset hint out r leave. subst out r leave. unfold WalkStack. rewrite Hset.
  unfold V8PushEnvironment, stackTrace_closure, V8PushEnvironment_enter. cbn [snd].
  fold hint.
  destruct (Call guest f _ _) as [o st2]. cbn [fst snd].
  assert (forall st3 : thread_state,
            g_isV8InGc st3 = g_isV8InGc st2 ->
            events (V8PushEnvironment_leave rt (g_currentV8Runtime (emit (EvEnter (self rt)) st)) st3)
            = events st3 ++ (if m_taskQueue rt && (g_isV8InGc st2 =? 0)
                             then [EvPerformCheckpoint (self rt)] else [])
                         ++ [EvLeave (self rt)]) as Hleave.
  { intros st3 Hgc. unfold V8PushEnvironment_leave, RunMicrotasks. rewrite Hgc.
    destruct (m_taskQueue rt); cbn [andb]; [destruct (g_isV8InGc st2 =? 0)|];
      cbn [events emit set_current]; by rewrite <- ?app_assoc. }
  split; [|split].
  - intros kind store offset len frames -> Hdec. rewrite Hdec. cbn [fst snd].
    destruct (submit_frames_events frames st2) as [Hev Hgc].
    rewrite Hleave by done. rewrite Hev. by rewrite <- app_assoc.
  - intros kind store offset len -> Hdec. rewrite Hdec. cbn [fst snd].
    by rewrite Hleave.
  - intros e ->. cbn [fst snd]. rewrite Hleave by done. cbn [events emit].
    by rewrite <- app_assoc.
Qed.

(** ** Pointer fields *)

Lemma IntegerValue_Z_to_double n :
  - 2 ^ 53 < n < 2 ^ 53 -> IntegerValue (JSNumber (Z_to_double n)) = Some n.
Proof.
  intros Hn. pose proof (trunc_Z_to_double n Hn) as Ht.
  assert (2 ^ 53 < INT64_MAX) by reflexivity.
  assert (INT64_MIN < - 2 ^ 53) by reflexivity.
  unfold IntegerValue. destruct (Z_to_double n); try discriminate;
    rewrite Ht; f_equal; lia.
Qed.

(** X12. The integer pointer field is initialised with its argument as an
    unsigned 64-bit value: an integer [n] of magnitude below 2^53 arrives
    as [n mod 2^64], so a negative one as its two's complement.  The
    float pointer field never sees its argument: whatever number is
    passed, the slot is initialised with 0 (the narrowed value is computed
    and dropped). *)
Theorem pointer_field_initial_value
    (GetPointerField : pointer_field -> Z -> Z) (n : Z) :
  - 2 ^ 53 < n < 2 ^ 53 ->
  V8_GetPointerField GetPointerField PointerValueInteger (JSNumber (Z_to_double n))
  = Some (JSExternal (GetPointerField PointerValueInteger
                        (if n <? 0 then n + 2 ^ 64 else n))) /\
  (forall d,
     V8_GetPointerField GetPointerField PointerValueFloat (JSNumber d)
     = Some (JSExternal (GetPointerField PointerValueFloat 0))).
Proof.
  intros Hn. split; [|done].
  unfold V8_GetPointerField. rewrite IntegerValue_Z_to_double by done.
  do 3 f_equal.
  assert (2 ^ 53 < 2 ^ 64) by reflexivity.
  destruct (Z.ltb_spec n 0).
  - symmetry. apply Z.mod_unique with (q := -1); lia.
  - apply Z.mod_small. lia.
Qed.

(** ** Warnings *)



(** ** Which runtime takes a file *)

Lemma starts_with_app (needle post : bytes) : starts_with needle (needle ++ post) = true.
Proof.
  induction needle as [|a needle IH]; [done|]. simpl. rewrite IH.
  by destruct a.
Qed.

Lemma strstr_unfold (haystack needle : bytes) :
  strstr haystack needle
  = starts_with needle haystack ||
    match haystack with [] => false | _ :: haystack' => strstr haystack' needle end.
Proof. by destruct haystack. Qed.

Lemma strstr_app (pre needle post : bytes) : strstr (pre ++ needle ++ post) needle = true.
Proof.
  induction pre as [|a pre IH].
  - rewrite strstr_unfold. cbn [app]. by rewrite starts_with_app.
  - cbn [app strstr]. rewrite IH. apply orb_true_r.
Qed.

Lemma c_str_app (pre post : bytes) : x00 ∉ pre -> c_str (pre ++ post) = pre ++ c_str post.
Proof.
  induction pre as [|b pre IH]; [done|]. intros Hs. simpl.
  destruct (Byte.eqb b x00) eqn:E.
  - apply Byte.byte_dec_bl in E. set_solver.
  - f_equal. apply IH. set_solver.
Qed.

(** X14. Of the four builds of the runtime that a process can load (with
    or without node, on the old or the new engine), exactly one takes a
    given file whose name contains ".js": the build with node where
    [UseNode] holds and the one without where it does not, on the old
    engine when the resource's "node_version" is "16" or undeclared and
    on the new engine for every other version.  The test is containment,
    not a suffix test, so whatever follows ".js" in the name does not
    matter.  A name without ".js" is taken by no build. *)
Theorem HandlesFile_exactly_one
    (fxserver sdk : bool) (pre post : bytes) (node_version : option bytes) :
  x00 ∉ pre ->
  let fileName := pre ++ [x2e; x6a; x73] ++ post in
  let b node new :=
    {| V8_NODE := node; IS_FXSERVER := fxserver; V8_12_2 := new; IsSDK := sdk |} in
  (forall node new,
     HandlesFile (b node new) fileName node_version = true
     <-> node = (fxserver || sdk) /\
         new = negb (strcmp_eq [x31; x36] (c_str (default [x31; x36] node_version)))) /\
  (forall node new, HandlesFile (b node new) fileName None = true
                    <-> node = (fxserver || sdk) /\ new = false) /\
  (forall node new other,
     strstr (c_str other) [x2e; x6a; x73] = false ->
     HandlesFile (b node new) other node_version = false).
Proof.
  intros Hpre fileName b.
  assert (strstr (c_str fileName) [x2e; x6a; x73] = true) as Hjs.
  { subst fileName. rewrite c_str_app by done.
    change (c_str ([x2e; x6a; x73] ++ post)) with ([x2e; x6a; x73] ++ c_str post).
    apply strstr_app. }
  assert (forall node new nv,
     HandlesFile (b node new) fileName nv = true
     <-> node = (fxserver || sdk) /\
         new = negb (strcmp_eq [x31; x36] (c_str (default [x31; x36] nv)))) as Hall.
  { intros node new nv. unfold HandlesFile. rewrite Hjs. unfold UseThis, UseNode.
    cbn [V8_NODE IS_FXSERVER V8_12_2 IsSDK b negb].
    destruct node, new, fxserver, sdk,
      (strcmp_eq [x31; x36] (c_str (default [x31; x36] nv)));
      cbn; intuition congruence. }
  split; [intros node new; apply (Hall node new node_version)|]. split.
  - intros node new. apply (Hall node new None).
  - intros node new other Hother. unfold HandlesFile. rewrite Hother. cbn [negb].
    by destruct (negb (UseThis (b node new))).
Qed.

(** ** The further properties at sample inputs *)

(** X1 at the result -5. *)
Lemma integer_result_round_trip_witness :
  - 2 ^ 53 < -5 < 2 ^ 53 /\
  PushArgument (ProcessResult no_objects (ResInt64 (-5))) (sample_runtime, [])
    = Ok (tt, (sample_runtime, [ArgInt64 (-5)])).
Proof.
  assert (- 2 ^ 53 < -5 < 2 ^ 53) as Hn by (split; reflexivity).
  split; [exact Hn|].
  exact (proj1 (integer_result_round_trip no_objects (-5) sample_runtime [] Hn)).
Defined.

(** X2 at the vector (1, 0, -1.5). *)
Lemma vector_result_round_trip_witness :
  valid_float (S754_finite false 8388608 (-23)) /\
  valid_float (S754_zero false) /\
  valid_float (S754_finite true 12582912 (-23)) /\
  PushArgument
    (ProcessResult no_objects
       (ResVector (S754_finite false 8388608 (-23)) (S754_zero false)
          (S754_finite true 12582912 (-23))))
    (sample_runtime, [])
  = Ok (tt, (sample_runtime,
             [ArgFloat (S754_finite false 8388608 (-23)); ArgFloat (S754_zero false);
              ArgFloat (S754_finite true 12582912 (-23))])).
Proof.
  split; [reflexivity|]. split; [reflexivity|]. split; [reflexivity|].
  exact (proj2 (proj2 (vector_result_round_trip no_objects
                         (S754_finite false 8388608 (-23)) (S754_zero false)
                         (S754_finite true 12582912 (-23)) sample_runtime []
                         eq_refl eq_refl eq_refl))).
Defined.

(** X3 at a fresh runtime and the strings "a" and "bc". *)
Lemma fifty_string_arguments_witness :
  arena_wf (new_V8ScriptRuntime 7) /\
  exists rt' nargs,
    push_arguments [JSString [x61]; JSString [x62; x63]] (new_V8ScriptRuntime 7, [])
    = Ok (tt, (rt', nargs)) /\
    length nargs = 2%nat /\
    exists slot, nargs !! 1%nat = Some (ArgString slot 2) /\
                 read_string rt' slot = Some [x62; x63].
Proof.
  assert (arena_wf (new_V8ScriptRuntime 7)) as Hwf
    by (split; [reflexivity | unfold countof_m_stringValues; simpl; lia]).
  split; [exact Hwf|].
  destruct (fifty_string_arguments [[x61]; [x62; x63]] (new_V8ScriptRuntime 7) Hwf)
    as (rt' & nargs & Hpush & Hlen & _ & Hread); [simpl; lia|].
  exists rt', nargs. split; [exact Hpush|]. split; [exact Hlen|].
  exact (Hread 1%nat [x62; x63] eq_refl).
Defined.

(** X4 at the sample runtime: the number 3, the string "a" and null. *)
Lemma marshaling_touches_only_the_arena_witness :
  exists rt' args',
    push_arguments [JSNumber (Z_to_double 3); JSString [x61]; JSNull] (sample_runtime, [])
    = Ok (tt, (rt', args')) /\
    routine TickRoutine rt' = Some 1%nat /\ self rt' = 7%nat /\ length args' = 3%nat.
Proof.
  destruct (push_arguments [JSNumber (Z_to_double 3); JSString [x61]; JSNull]
              (sample_runtime, [])) as [[[] [rt' args']]|e] eqn:E;
    [|vm_compute in E; discriminate E].
  exists rt', args'. split; [reflexivity|].
  assert (Forall (fun arg => scalar_argument arg = true)
            [JSNumber (Z_to_double 3); JSString [x61]; JSNull]) as Hl
    by (repeat constructor).
  destruct (marshaling_touches_only_the_arena _ sample_runtime rt' [] args' Hl E)
    as (Hroutine & Hself & _ & _ & _ & (new & Hnew & Hlen)).
  split; [exact (Hroutine TickRoutine)|]. split; [exact Hself|].
  rewrite Hnew. exact Hlen.
Defined.

(** X5 at the halves 1 and 2. *)
Lemma invoke_by_hash_witness :
  V8_InvokeNativeHash no_objects hash_native sample_runtime
    [JSNumber (Z_to_double 1); JSNumber (Z_to_double 2)]
  = Some (NativeReturn (JSNumber (Z_to_double 4294967298)) sample_runtime).
Proof.
  assert (0 <= 1 < 2 ^ 32) as Hhi by (split; [discriminate | reflexivity]).
  assert (0 <= 2 < 2 ^ 32) as Hlo by (split; [discriminate | reflexivity]).
  exact (proj1 (invoke_by_hash no_objects hash_native sample_runtime 1 2 [] Hhi Hlo)).
Defined.

(** X8 at the sample runtime, from the idle thread: two prologues and one
    epilogue. *)
Lemma checkpoints_wait_for_gc_witness :
  g_isV8InGc idle_thread = 0 /\
  g_isV8InGc (GCEpilogueCallback (GCPrologueCallback (GCPrologueCallback idle_thread))) = 1 /\
  events (V8PushEnvironment_leave sample_runtime None
            (GCEpilogueCallback (GCPrologueCallback (GCPrologueCallback idle_thread))))
  = [EvLeave 7%nat].
Proof.
  split; [reflexivity|].
  destruct (checkpoints_wait_for_gc sample_runtime idle_thread 2 1 eq_refl)
    as (Hdepth & _ & _ & Hleave); [lia|].
  split; [exact Hdepth | exact Hleave].
Defined.

(** X10 at the serving runtime with a guest that returns its payload. *)
Lemma CallRef_result_witness :
  m_callRefRoutine serving_runtime = Some 4%nat /\
  (CallRef echo_guest serving_runtime 5 [x01; x02] idle_thread).1
  = (FX_S_OK, Some [x01; x02]).
Proof.
  split; [reflexivity|].
  destruct (CallRef_result echo_guest serving_runtime 4%nat 5 [x01; x02] idle_thread eq_refl)
    as (Hok & _ & _ & _ & Hecho).
  specialize (Hecho eq_refl).
  destruct (CallRef echo_guest serving_runtime 5 [x01; x02] idle_thread) as [[r b] st].
  simpl in *. by subst.
Defined.

(** X11 at the serving runtime with a guest that returns the bytes 1, 2
    and a decoder that takes each byte for a frame. *)
Lemma WalkStack_frames_witness :
  m_stackTraceRoutine serving_runtime = Some 5%nat /\
  (WalkStack blob_guest byte_frames serving_runtime None (Some 3) idle_thread).1
  = Some FX_S_OK /\
  events (WalkStack blob_guest byte_frames serving_runtime None (Some 3) idle_thread).2
  = events (Call blob_guest 5%nat [JSNull; JSNumber (Z_to_double 3)]
              (V8PushEnvironment_enter serving_runtime idle_thread).2).2
    ++ [EvSubmitStackFrame [x01]; EvSubmitStackFrame [x02];
        EvPerformCheckpoint 7%nat; EvLeave 7%nat].
Proof.
  split; [reflexivity|].
  destruct (WalkStack_frames blob_guest byte_frames serving_runtime 5%nat None (Some 3)
              idle_thread eq_refl) as (Hframes & _).
  exact (Hframes Uint8Array [x01; x02] 0%nat 2%nat [[x01]; [x02]] eq_refl eq_refl).
Defined.

(** X12 at the argument -1. *)
Lemma pointer_field_initial_value_witness :
  - 2 ^ 53 < -1 < 2 ^ 53 /\
  V8_GetPointerField (fun _ value => value) PointerValueInteger (JSNumber (Z_to_double (-1)))
  = Some (JSExternal 18446744073709551615).
Proof.
  assert (- 2 ^ 53 < -1 < 2 ^ 53) as Hn by (split; reflexivity).
  split; [exact Hn|].
  exact (proj1 (pointer_field_initial_value (fun _ value => value) (-1) Hn)).
Defined.


(** X14 at the file "a.json" of a resource that declares no node version,
    on a server. *)
Lemma HandlesFile_exactly_one_witness :
  HandlesFile {| V8_NODE := true; IS_FXSERVER := true; V8_12_2 := false; IsSDK := false |}
    [x61; x2e; x6a; x73; x6f; x6e] None = true /\
  HandlesFile {| V8_NODE := true; IS_FXSERVER := true; V8_12_2 := true; IsSDK := false |}
    [x61; x2e; x6a; x73; x6f; x6e] (Some [x32; x32]) = true.
Proof.
  assert (x00 ∉ [x61]) as Hnul.
  { intros H. apply elem_of_cons in H as [H|H]; [discriminate H|].
    by apply not_elem_of_nil in H. }
  destruct (HandlesFile_exactly_one true false [x61] [x6f; x6e] None Hnul) as (_ & Hnone & _).
  destruct (HandlesFile_exactly_one true false [x61] [x6f; x6e] (Some [x32; x32]) Hnul)
    as (Hver & _).
  split.
  - apply (proj2 (Hnone true false)). split; reflexivity.
  - apply (proj2 (Hver true true)). split; reflexivity.
Defined.
